(** * Pirate Islands: a shallow embedding of [TextBasedGme.py]

    The game engine of the text adventure is embedded function by function.

    - A Python [str] is the [string] of its UTF-8 bytes.  [str.strip] and
      [str.split] work on the characters of the string and take for
      whitespace the code points that Python takes, those outside ASCII
      included.  [str.lower] is the lowering of [A]..[Z] on a string of ASCII
      characters; on any other string it is the [unicode_lower] of the
      runtime, a parameter of the development of which nothing is assumed.
    - The module-level dictionary [WORLD] and the session's [Player] object are
      mutable; both live in a [State] record that every handler threads.
    - [print] is modelled by a log of [Output] events.  [textwrap.fill] is
      not interpreted: [PrintWrapped t] stands for [print(wrap(t))].
    - [KeyError] (subscript of a dict) and [ValueError] ([list.remove]) are
      outcomes of the [Proc] monad; the state reached at the raise is kept,
      as an in-place mutation is not undone by an exception. *)

From Stdlib Require Import Ascii String.
From stdpp Require Import gmap strings list fin_maps sorting.

Open Scope string_scope.
Open Scope list_scope.

(** ** Strings *)

(** [str.lower] on a string that holds a character outside ASCII.  The case
    mapping of Unicode is a table of the Python runtime, not of the program;
    it is left open, and nothing is assumed of it. *)
Class Lowering := { unicode_lower : string → string }.

Module Str.

Definition nl : string := String "010"%char "".

(** *** Characters *)

Definition byte (n : N) : ascii := ascii_of_N n.

(** The UTF-8 bytes of a code point. *)
Definition utf8 (cp : N) : string :=
  (if cp <? 128 then String (byte cp) ""
   else if cp <? 2048 then
     String (byte (192 + cp / 64)) (String (byte (128 + cp mod 64)) "")
   else if cp <? 65536 then
     String (byte (224 + cp / 4096))
       (String (byte (128 + (cp / 64) mod 64)) (String (byte (128 + cp mod 64)) ""))
   else
     String (byte (240 + cp / 262144))
       (String (byte (128 + (cp / 4096) mod 64))
          (String (byte (128 + (cp / 64) mod 64))
             (String (byte (128 + cp mod 64)) ""))))%N.

(** The bytes [10xxxxxx] continue a character; any other byte starts one. *)
Definition is_continuation (b : ascii) : bool :=
  let n := N_of_ascii b in ((128 <=? n) && (n <? 192))%N.

(** The characters of a [str], each as its bytes.  [cur] is the character
    being read. *)
Fixpoint chars_from (cur s : string) : list string :=
  match s with
  | "" => match cur with "" => [] | _ => [cur] end
  | String b s' =>
      if is_continuation b then chars_from (cur ++ String b "") s'
      else match cur with
           | "" => chars_from (String b "") s'
           | _ => cur :: chars_from (String b "") s'
           end
  end.

Definition chars (s : string) : list string := chars_from "" s.

(** [''.join(cs)] *)
Fixpoint cat (cs : list string) : string :=
  match cs with
  | [] => ""
  | c :: cs' => c ++ cat cs'
  end.

(** The code points that [str.split()] and [str.strip()] take for
    whitespace. *)
Definition WHITESPACE : list N :=
  [9; 10; 11; 12; 13; 28; 29; 30; 31; 32; 133; 160; 5760;
   8192; 8193; 8194; 8195; 8196; 8197; 8198; 8199; 8200; 8201; 8202;
   8232; 8233; 8239; 8287; 12288]%N.

(** [c.isspace()] for a character [c]. *)
Definition isspace (c : string) : bool := bool_decide (c ∈ utf8 <$> WHITESPACE).

Fixpoint lstrip_chars (cs : list string) : list string :=
  match cs with
  | [] => []
  | c :: cs' => if isspace c then lstrip_chars cs' else cs
  end.

Fixpoint rstrip_chars (cs : list string) : list string :=
  match cs with
  | [] => []
  | c :: cs' =>
      match rstrip_chars cs' with
      | [] => if isspace c then [] else [c]
      | r => c :: r
      end
  end.

(** [s.strip()] *)
Definition strip (s : string) : string := cat (rstrip_chars (lstrip_chars (chars s))).

(** [s.split()] with no separator: runs of whitespace separate the words,
    and no empty word is produced.  [cur] is the word being read. *)
Fixpoint split_from (cur : string) (cs : list string) : list string :=
  match cs with
  | [] => match cur with "" => [] | _ => [cur] end
  | c :: cs' =>
      if isspace c
      then match cur with
           | "" => split_from "" cs'
           | _ => cur :: split_from "" cs'
           end
      else split_from (cur ++ c) cs'
  end.

Definition split (s : string) : list string := split_from "" (chars s).

(** *** Letter case *)

Fixpoint ascii_only (s : string) : bool :=
  match s with
  | "" => true
  | String b s' => (N_of_ascii b <? 128)%N && ascii_only s'
  end.

Definition lower_char (c : ascii) : ascii :=
  let n := nat_of_ascii c in
  if ((65 <=? n) && (n <=? 90))%nat then ascii_of_nat (n + 32) else c.

Fixpoint lower_ascii (s : string) : string :=
  match s with
  | "" => ""
  | String c s' => String (lower_char c) (lower_ascii s')
  end.

(** [s.lower()]: on a string of ASCII characters the letters [A]..[Z] are
    lowered; on any other string the result is the runtime's. *)
Definition lower `{Lowering} (s : string) : string :=
  if ascii_only s then lower_ascii s else unicode_lower s.

(** *** Joining, searching, sorting *)

(** [sep.join(l)] *)
Fixpoint join (sep : string) (l : list string) : string :=
  match l with
  | [] => ""
  | [x] => x
  | x :: l' => x ++ sep ++ join sep l'
  end.

(** [needle in hay] *)
Fixpoint str_in (needle hay : string) : bool :=
  String.prefix needle hay
  || match hay with
     | "" => false
     | String _ hay' => str_in needle hay'
     end.

(** [c * n] for a one-character string *)
Definition times (c : ascii) (n : nat) : string :=
  string_of_list_ascii (replicate n c).

(** [sorted(l)] on strings: code-point order, which is the order of the
    UTF-8 bytes. *)
Definition sorted (l : list string) : list string :=
  merge_sort (λ a b, Is_true (String.leb a b)) l.

End Str.

(** A runtime for the examples: it lowers the ASCII letters of any string. *)
Definition ascii_lowering : Lowering := {| unicode_lower := Str.lower_ascii |}.

(** [l.remove(x)]: the first occurrence goes; [None] stands for the
    [ValueError] of an absent [x]. *)
Fixpoint list_remove (x : string) (l : list string) : option (list string) :=
  match l with
  | [] => None
  | y :: l' => if decide (x = y) then Some l' else (y ::.) <$> list_remove x l'
  end.

(** [d.get(k)] on a dict kept in insertion order (the dict literals of the
    program repeat no key). *)
Fixpoint dict_get {V} (d : list (string * V)) (k : string) : option V :=
  match d with
  | [] => None
  | (k', v) :: d' => if decide (k = k') then Some v else dict_get d' k
  end.

(** ** Game data *)

Definition TREASURE_NAMES : list string :=
  ["cutlass"; "compass"; "doubloon"; "rum"; "spyglass"; "map piece"].

Definition TREASURE_ITEMS : gset string := list_to_set TREASURE_NAMES.

(** [exits] is a dict from a direction to an island name; it is kept in
    insertion order, which [show_location] prints. *)
Record Island := mkIsland {
  name : string;
  description : string;
  items : list string;
  exits : list (string * string)
}.

Definition WORLD : gmap string Island :=
  {[ "Pirate Cove" := mkIsland "Pirate Cove"
       ("Your secret hideout: a crescent beach with a beached skiff and a fire pit."
        ++ Str.nl ++
        "Legends say a captain who returns with the full trove becomes ruler of the winds.")
       ["note"]
       [("east", "Skull Key"); ("south", "Mermaid Shoals")];
     "Skull Key" := mkIsland "Skull Key"
       "A jagged islet shaped like a skull. Gulls circle overhead; something glints in a crevice."
       ["spyglass"]
       [("west", "Pirate Cove"); ("east", "Blackwater Cay")];
     "Blackwater Cay" := mkIsland "Blackwater Cay"
       "Waters here are inky and calm. A half‑sunken sloop lists against coral."
       ["compass"]
       [("west", "Skull Key"); ("south", "Rumrunner Atoll")];
     "Rumrunner Atoll" := mkIsland "Rumrunner Atoll"
       "Palm shadows dapple caches of old bottles. Footprints criss‑cross the sand."
       ["rum"]
       [("north", "Blackwater Cay"); ("west", "Mermaid Shoals")];
     "Mermaid Shoals" := mkIsland "Mermaid Shoals"
       "Shallow turquoise flats sing with the tide. A carved stone points somewhere unseen."
       ["map piece"]
       [("north", "Pirate Cove"); ("east", "Rumrunner Atoll"); ("south", "Cutlass Bay")];
     "Cutlass Bay" := mkIsland "Cutlass Bay"
       "Crescent bay where waves sharpen on a reef. Something metallic lies under kelp."
       ["cutlass"]
       [("north", "Mermaid Shoals"); ("east", "Doubloon Point")];
     "Doubloon Point" := mkIsland "Doubloon Point"
       "A rocky spit with tide pools full of tiny stars. A coin winks in the foam."
       ["doubloon"]
       [("west", "Cutlass Bay")] ]}.

Definition START_ISLAND : string := "Pirate Cove".

Record Player := mkPlayer {
  location : string;
  inventory : list string
}.

(** [Player()] *)
Definition new_player : Player := mkPlayer START_ISLAND [].

(** [Player.has_all_treasure] *)
Definition has_all_treasure (p : Player) : bool :=
  bool_decide (TREASURE_ITEMS ⊆ list_to_set (inventory p)).

(** ** The state and the monad of the handlers *)

Record State := mkState {
  world : gmap string Island;
  player : Player
}.

Definition initial_state : State := mkState WORLD new_player.

Inductive Output :=
| Print (line : string)
| PrintWrapped (text : string).

Inductive Exn :=
| KeyError (key : string)
| ValueError.

Inductive Outcome (A : Type) :=
| Ret (a : A)
| Raise (e : Exn).
Arguments Ret {A} a.
Arguments Raise {A} e.

Record Result (A : Type) := mkResult {
  outcome : Outcome A;
  final : State;
  printed : list Output
}.
Arguments mkResult {A} _ _ _.
Arguments outcome {A} _.
Arguments final {A} _.
Arguments printed {A} _.

Definition Proc (A : Type) : Type := State → Result A.

Definition proc_ret {A} (a : A) : Proc A := λ s, mkResult (Ret a) s [].

Definition proc_bind {A B} (f : A → Proc B) (m : Proc A) : Proc B := λ s,
  let r := m s in
  match outcome r with
  | Ret a =>
      let r' := f a (final r) in
      mkResult (outcome r') (final r') (printed r ++ printed r')
  | Raise e => mkResult (Raise e) (final r) (printed r)
  end.

#[global] Instance Proc_ret : MRet Proc := @proc_ret.
#[global] Instance Proc_bind : MBind Proc := @proc_bind.

Definition raise {A} (e : Exn) : Proc A := λ s, mkResult (Raise e) s [].
Definition print (line : string) : Proc unit := λ s, mkResult (Ret tt) s [Print line].
Definition print_wrapped (text : string) : Proc unit :=
  λ s, mkResult (Ret tt) s [PrintWrapped text].
Definition get_player : Proc Player := λ s, mkResult (Ret (player s)) s [].
Definition set_player (p : Player) : Proc unit :=
  λ s, mkResult (Ret tt) (mkState (world s) p) [].

(** [WORLD[key]] *)
Definition world_at (key : string) : Proc Island := λ s,
  match world s !! key with
  | Some island => mkResult (Ret island) s []
  | None => mkResult (Raise (KeyError key)) s []
  end.

Definition with_items (l : list string) (i : Island) : Island :=
  mkIsland (name i) (description i) l (exits i).

(** The list [WORLD[key].items] becomes [l] ([remove] and [append] mutate the
    list of the island in place). *)
Definition set_items (key : string) (l : list string) : Proc unit := λ s,
  mkResult (Ret tt) (mkState (alter (with_items l) key (world s)) (player s)) [].

(** ** Game engine *)

Definition rule : string := Str.times "=" 80.

Definition title (text : string) : Proc unit :=
  print (Str.nl ++ rule);; print text;; print rule.

Definition show_instructions : Proc unit :=
  title "How to Play";;
  print_wrapped
    ("Sail between islands, collect pirate loot, and return to Pirate Cove with the lot."
     ++ Str.nl ++
     "Use simple commands like 'go east', 'take compass', 'inventory', and 'look'.");;
  print (Str.nl ++
    "Commands: go <n|s|e|w>, look, take <item>, drop <item>, inventory, help, quit").

Definition show_location : Proc unit :=
  p ← get_player;
  island ← world_at (location p);
  title (name island);;
  print_wrapped (description island);;
  match items island with
  | [] => mret tt
  | _ => print (Str.nl ++ "You spot: " ++ Str.join ", " (items island))
  end;;
  match exits island with
  | [] => mret tt
  | _ =>
      print ("Exits: " ++
             Str.join ", " ((λ '(d, n), (d ++ " -> " ++ n)%string) <$> exits island))
  end.

Section game.

Context {runtime : Lowering}.

Definition direction_names : list (string * string) :=
  [("n", "north"); ("north", "north");
   ("s", "south"); ("south", "south");
   ("e", "east"); ("east", "east");
   ("w", "west"); ("west", "west")].

Definition parse_direction (token : string) : option string :=
  dict_get direction_names (Str.lower token).

Definition handle_go (args : list string) : Proc unit :=
  match args with
  | [] => print "Go where? Try 'go north' or 'go n'."
  | token :: _ =>
      match parse_direction token with
      | None => print "That's not a direction. Use north/south/east/west (or n/s/e/w)."
      | Some direction =>
          p ← get_player;
          island ← world_at (location p);
          match dict_get (exits island) direction with
          | None => print "No passage that way."
          | Some target =>
              set_player (mkPlayer target (inventory p));;
              show_location
          end
      end
  end.

Definition handle_look : Proc unit := show_location.

Definition victory_text : string :=
  "You slam the chest on the sand and spill the treasures at the fire pit. The winds"
  ++ Str.nl ++
  "shift in your favor. Songs will be sung of your name — Captain of the Isles!".

Definition print_victory : Proc unit :=
  title "Victory!";; print_wrapped victory_text.

(** The test of the comprehensions of [handle_take] and [handle_drop]:
    [item in i.lower()]. *)
Definition is_match (item i : string) : Prop :=
  Str.str_in item (Str.lower i) = true.

#[global] Instance is_match_dec item i : Decision (is_match item i).
Proof. unfold is_match. apply _. Defined.

Definition handle_take (args : list string) : Proc unit :=
  match args with
  | [] => print "Take what?"
  | _ =>
      let item := Str.lower (Str.join " " args) in
      p ← get_player;
      island ← world_at (location p);
      match filter (is_match item) (items island) with
      | [] => print "You don't see that here."
      | found :: _ =>
          match list_remove found (items island) with
          | None => raise ValueError
          | Some rest =>
              set_items (location p) rest;;
              set_player (mkPlayer (location p) (inventory p ++ [found]));;
              print ("You take the " ++ found ++ ".");;
              p' ← get_player;
              if has_all_treasure p' && bool_decide (location p' = "Pirate Cove")
              then print_victory
              else mret tt
          end
      end
  end.

Definition handle_drop (args : list string) : Proc unit :=
  match args with
  | [] => print "Drop what?"
  | _ =>
      let item := Str.lower (Str.join " " args) in
      p ← get_player;
      match filter (is_match item) (inventory p) with
      | [] => print "You aren't carrying that."
      | found :: _ =>
          match list_remove found (inventory p) with
          | None => raise ValueError
          | Some rest =>
              set_player (mkPlayer (location p) rest);;
              island ← world_at (location p);
              set_items (location p) (items island ++ [found]);;
              print ("You drop the " ++ found ++ ".")
          end
      end
  end.

Definition handle_inventory : Proc unit :=
  p ← get_player;
  match inventory p with
  | [] => print "Your bag is empty."
  | _ =>
      print ("You carry: " ++ Str.join ", " (inventory p));;
      let missing : gset string := TREASURE_ITEMS ∖ list_to_set (inventory p) in
      if decide (missing = ∅)
      then print "You've collected the full trove! Return to Pirate Cove to claim victory."
      else print ("Still missing: " ++ Str.join ", " (Str.sorted (elements missing)))
  end.

Definition check_victory_on_move : Proc unit :=
  p ← get_player;
  if bool_decide (location p = "Pirate Cove") && has_all_treasure p
  then print_victory
  else mret tt.

Definition handle_help : Proc unit := show_instructions.

Definition GO_VERBS : gset string := {[ "go"; "move" ]}.
Definition DIRECTION_VERBS : gset string :=
  {[ "n"; "s"; "e"; "w"; "north"; "south"; "east"; "west" ]}.
Definition LOOK_VERBS : gset string := {[ "look"; "l" ]}.
Definition TAKE_VERBS : gset string := {[ "take"; "get"; "pick" ]}.
Definition INVENTORY_VERBS : gset string := {[ "inventory"; "inv"; "i"; "bag" ]}.
Definition HELP_VERBS : gset string := {[ "help"; "h"; "?" ]}.
Definition QUIT_VERBS : gset string := {[ "quit"; "exit" ]}.

(** [[t for t in command.strip().split() if t]] *)
Definition tokenize (command : string) : list string :=
  filter (λ t, t ≠ "") (Str.split (Str.strip command)).

(** The boolean returned is [True] to continue the loop, [False] to stop. *)
Definition handle_command (command : string) : Proc bool :=
  match tokenize command with
  | [] => mret true
  | verb0 :: args =>
      let verb := Str.lower verb0 in
      if bool_decide (verb ∈ GO_VERBS) then
        handle_go args;; check_victory_on_move;; mret true
      else if bool_decide (verb ∈ DIRECTION_VERBS) then
        handle_go [verb];; check_victory_on_move;; mret true
      else if bool_decide (verb ∈ LOOK_VERBS) then
        handle_look;; mret true
      else if bool_decide (verb ∈ TAKE_VERBS) then
        handle_take args;; mret true
      else if bool_decide (verb = "drop") then
        handle_drop args;; mret true
      else if bool_decide (verb ∈ INVENTORY_VERBS) then
        handle_inventory;; mret true
      else if bool_decide (verb ∈ HELP_VERBS) then
        handle_help;; mret true
      else if bool_decide (verb ∈ QUIT_VERBS) then
        print "Fair winds, captain.";; mret false
      else
        print "I don't understand that command. Type 'help' for options.";; mret true
  end.

(** ** Game loop *)

(** The loop of [start_game] over the lines that [input] will deliver; when
    they run out, [input] raises [EOFError], which the loop catches. *)
Fixpoint game_loop (lines : list string) : Proc unit :=
  match lines with
  | [] => print (Str.nl ++ "Fair winds, captain.")
  | cmd :: lines' =>
      continue ← handle_command cmd;
      if continue : bool then game_loop lines' else mret tt
  end.

(** [start_game] on the world as the previous sessions left it. *)
Definition start_game (lines : list string) (w : gmap string Island) : Result unit :=
  (show_location;; game_loop lines) (mkState w new_player).

(** The state after a sequence of calls of [handle_command], whatever each
    call returned. *)
Definition after (cmds : list string) (s : State) : State :=
  foldl (λ st cmd, final (handle_command cmd st)) s cmds.

(** Everything printed by a sequence of calls of [handle_command]. *)
Fixpoint transcript (cmds : list string) (s : State) : list Output :=
  match cmds with
  | [] => []
  | cmd :: cmds' =>
      let r := handle_command cmd s in printed r ++ transcript cmds' (final r)
  end.

(** ** Menu *)

(** The lines that the loop of [start_game] leaves unread: those that follow
    the command on which [handle_command] returned [False] or raised. *)
Fixpoint unread (lines : list string) (s : State) : list string :=
  match lines with
  | [] => []
  | cmd :: lines' =>
      let r := handle_command cmd s in
      match outcome r with
      | Ret true => unread lines' (final r)
      | _ => lines'
      end
  end.

(** [main_menu] only prints; the state it runs on is not looked at. *)
Definition main_menu : Proc unit :=
  title "PIRATE ISLANDS — Text Adventure";;
  print "1) Start Game";;
  print "2) Instructions";;
  print "3) Quit".

(** How a call of [run] ends: it returns, or an exception escapes it
    ([input] raises [EOFError] at the end of the input, and [run] does not
    catch it).  [OutOfFuel] is the model's own: the recursion is bounded. *)
Inductive Ending :=
| Returned
| EndOfInput
| Failed (e : Exn)
| OutOfFuel.

Record Run := mkRun {
  ending : Ending;
  world_left : gmap string Island;
  shown : list Output
}.

Definition shown_first (out : list Output) (r : Run) : Run :=
  mkRun (ending r) (world_left r) (out ++ shown r).

(** The loop of [run] on the lines that [input] will deliver and on the world
    as it stands; each turn of the loop reads at least one line.  The prompts
    that [input] writes are not logged, and [KeyboardInterrupt] is not
    modelled.  After a session the loop goes on with the lines that the
    session left unread and with the world as the session left it. *)
Fixpoint run_fuel (fuel : nat) (lines : list string) (w : gmap string Island) : Run :=
  match fuel with
  | 0 => mkRun OutOfFuel w []
  | S fuel' =>
      let menu := printed (main_menu (mkState w new_player)) in
      match lines with
      | [] => mkRun EndOfInput w menu
      | line :: rest =>
          let choice := Str.strip line in
          if decide (choice = "1") then
            let g := start_game rest w in
            match outcome g with
            | Raise e => mkRun (Failed e) (world (final g)) (menu ++ printed g)
            | Ret _ =>
                shown_first (menu ++ printed g)
                  (run_fuel fuel' (unread rest (mkState w new_player)) (world (final g)))
            end
          else if decide (choice = "2") then
            let help := printed (show_instructions (mkState w new_player)) in
            match rest with
            | [] => mkRun EndOfInput w (menu ++ help)
            | _ :: rest' => shown_first (menu ++ help) (run_fuel fuel' rest' w)
            end
          else if decide (choice = "3") then
            mkRun Returned w (menu ++ [Print "Goodbye!"])
          else
            shown_first (menu ++ [Print "Choose 1, 2, or 3."]) (run_fuel fuel' rest w)
      end
  end.

Definition run (lines : list string) (w : gmap string Island) : Run :=
  run_fuel (S (length lines)) lines w.

(** ** Vocabulary of the properties *)

(** A line is blank when each of its characters is whitespace. *)
Definition blank (s : string) : bool := forallb Str.isspace (Str.chars s).

(** No character of the string is whitespace. *)
Definition spaceless (t : string) : bool :=
  forallb (λ c, negb (Str.isspace c)) (Str.chars t).

(** The UTF-8 bytes of a [str] begin with the first byte of a character. *)
Definition text (t : string) : bool :=
  match t with
  | "" => true
  | String b _ => negb (Str.is_continuation b)
  end.

(** Every byte continues a character. *)
Fixpoint continues (t : string) : bool :=
  match t with
  | "" => true
  | String b t' => Str.is_continuation b && continues t'
  end.

(** A character: a first byte and the bytes that continue it. *)
Definition character (c : string) : bool :=
  match c with
  | "" => false
  | String b t => negb (Str.is_continuation b) && continues t
  end.

(** What [Str.chars] reads first from bytes that begin inside a character. *)
Definition glyph (c : string) : bool :=
  match c with
  | "" => false
  | String _ t => continues t
  end.

(** The lists of characters that [Str.chars] produces. *)
Definition well_formed (cs : list string) : Prop :=
  match cs with
  | [] => True
  | c :: cs' => glyph c = true ∧ Forall (λ c, character c = true) cs'
  end.

(** The letters [a]..[z]. *)
Definition small_letter (b : ascii) : bool :=
  let n := nat_of_ascii b in ((97 <=? n) && (n <=? 122))%nat.

Fixpoint no_small_letter (s : string) : bool :=
  match s with
  | "" => true
  | String b s' => negb (small_letter b) && no_small_letter s'
  end.

(** The island the player stands on, [WORLD[player.location]]. *)
Definition here (s : State) : option Island := world s !! location (player s).

(** What no command changes of an island. *)
Definition layout (i : Island) : string * string * list (string * string) :=
  (name i, description i, exits i).

(** The states of the game: the islands of [WORLD] with their names,
    descriptions and exits, any item lists, any inventory, and the player on
    one of the islands. *)
Definition game_state (s : State) : Prop :=
  layout <$> world s = layout <$> WORLD ∧ is_Some (here s).

(** The containers of items: the inventory and the item list of every island. *)
Definition containers (s : State) : list (list string) :=
  inventory (player s) :: ((items ∘ snd) <$> map_to_list (world s)).

(** All the item names held somewhere, with repetitions. *)
Definition holdings (s : State) : list string := List.concat (containers s).

(** The number of containers in which [x] occurs. *)
Definition owners (x : string) (s : State) : nat :=
  length (filter (λ c, x ∈ c) (containers s)).

(** The victory announcement is the banner that [print_victory] prints. *)
Definition announces_victory (out : list Output) : Prop := Print "Victory!" ∈ out.

(** Every exit of every island of [w] leads to an island of [w]. *)
Definition exits_closed (w : gmap string Island) : Prop :=
  map_Forall (λ _ isl, Forall (λ e, is_Some (w !! e.2)) (exits isl)) w.

(** What [print_victory] prints. *)
Definition victory_out : list Output :=
  [Print (Str.nl ++ rule); Print "Victory!"; Print rule; PrintWrapped victory_text].

(** The test made on a state by [check_victory_on_move] and, in the other
    order, by [handle_take]. *)
Definition victorious (s : State) : bool :=
  bool_decide (location (player s) = "Pirate Cove") && has_all_treasure (player s).

(** The argument that [handle_take] and [handle_drop] search for. *)
Definition item_of (args : list string) : string := Str.lower (Str.join " " args).

(** The branch of [handle_command] that a lowercased verb selects. *)
Inductive Verb :=
| VGo | VDirection | VLook | VTake | VDrop | VInventory | VHelp | VQuit | VUnknown.

#[global] Instance Verb_eq_dec : EqDecision Verb.
Proof. solve_decision. Defined.

Definition classify (verb : string) : Verb :=
  if bool_decide (verb ∈ GO_VERBS) then VGo
  else if bool_decide (verb ∈ DIRECTION_VERBS) then VDirection
  else if bool_decide (verb ∈ LOOK_VERBS) then VLook
  else if bool_decide (verb ∈ TAKE_VERBS) then VTake
  else if bool_decide (verb = "drop") then VDrop
  else if bool_decide (verb ∈ INVENTORY_VERBS) then VInventory
  else if bool_decide (verb ∈ HELP_VERBS) then VHelp
  else if bool_decide (verb ∈ QUIT_VERBS) then VQuit
  else VUnknown.

(** The line stops the loop: its verb is [quit] or [exit]. *)
Definition quits (cmd : string) : Prop :=
  ∃ verb args, tokenize cmd = verb :: args
               ∧ (Str.lower verb = "quit" ∨ Str.lower verb = "exit").

(** The line is a Move command: [go] or [move], or a bare direction. *)
Definition is_move (cmd : string) : Prop :=
  ∃ verb args, tokenize cmd = verb :: args
               ∧ Str.lower verb ∈ ["go"; "move"; "n"; "s"; "e"; "w";
                                   "north"; "south"; "east"; "west"].

(** The line is a Take command that succeeds in [s]: it has an argument, and
    an item of the player's island matches it. *)
Definition take_succeeds (cmd : string) (s : State) : Prop :=
  ∃ verb args isl x,
    tokenize cmd = verb :: args
    ∧ Str.lower verb ∈ ["take"; "get"; "pick"]
    ∧ args ≠ []
    ∧ here s = Some isl
    ∧ x ∈ items isl
    ∧ is_match (item_of args) x.

#[global] Instance Output_eq_dec : EqDecision Output.
Proof. solve_decision. Defined.

(** How many times the banner was printed. *)
Definition banners (out : list Output) : nat :=
  length (filter (λ o, o = Print "Victory!") out).

(** A session that collects the six treasures and sails home. *)
Definition winning_script : list string :=
  ["e"; "take spyglass"; "e"; "take compass"; "s"; "take rum"; "w"; "take map";
   "s"; "take cutlass"; "e"; "take doubloon"; "w"; "n"; "n"].

(** The name [i] contains the argument [arg] as a substring, case apart. *)
Definition contains_ci (i arg : string) : Prop :=
  ∃ pre post, Str.lower i = (pre ++ Str.lower arg ++ post)%string.

(** The first item of [l], in order, that the argument [args] matches. *)
Definition first_match (args : list string) (l : list string) : option string :=
  head (filter (is_match (item_of args)) l).

(** The item [x] lies on the island called [k]. *)
Definition lies_at (s : State) (k x : string) : Prop :=
  ∃ isl, world s !! k = Some isl ∧ x ∈ items isl.

(** Two states give every island the same set of items and the inventory
    the same members. *)
Definition same_ownership (s s' : State) : Prop :=
  (∀ k x, lies_at s' k x ↔ lies_at s k x)
  ∧ (∀ x, x ∈ inventory (player s') ↔ x ∈ inventory (player s)).

(** The state after a Take with [targs] and then a Drop with [dargs]. *)
Definition take_then_drop (targs dargs : list string) (s : State) : State :=
  final (handle_drop dargs (final (handle_take targs s))).

(** Take-then-drop as a round trip: when [x] lies on the player's island, the
    Take with [targs] selects [x], and the argument of the Drop with [dargs]
    matches [x], ownership after the two commands is as before them. *)
Definition take_drop_round_trip
    (s : State) (x : string) (targs dargs : list string) : Prop :=
  lies_at s (location (player s)) x →
  targs ≠ [] →
  (∃ isl, here s = Some isl ∧ first_match targs (items isl) = Some x) →
  dargs ≠ [] →
  is_match (item_of dargs) x →
  same_ownership s (take_then_drop targs dargs s).

(** The worlds of the game: the islands of [WORLD] with any item lists. *)
Definition game_world (w : gmap string Island) : Prop :=
  layout <$> w = layout <$> WORLD.

(** The items lying on the islands, with repetitions. *)
Definition stock (w : gmap string Island) : list string :=
  List.concat ((items ∘ snd) <$> map_to_list w).

(** The way back. *)
Definition opposite (d : string) : string :=
  if decide (d = "north") then "south"
  else if decide (d = "south") then "north"
  else if decide (d = "east") then "west"
  else if decide (d = "west") then "east"
  else d.

(** Where the exits named by [ds], taken in turn, lead from the island [k]
    of the static world. *)
Fixpoint walk (k : string) (ds : list string) : option string :=
  match ds with
  | [] => Some k
  | d :: ds' =>
      isl ← WORLD !! k;
      k' ← dict_get (exits isl) d;
      walk k' ds'
  end.

(** A course from Pirate Cove to each island. *)
Definition course_from_home : list (string * list string) :=
  [("Pirate Cove", []);
   ("Skull Key", ["east"]);
   ("Blackwater Cay", ["east"; "east"]);
   ("Rumrunner Atoll", ["south"; "east"]);
   ("Mermaid Shoals", ["south"]);
   ("Cutlass Bay", ["south"; "south"]);
   ("Doubloon Point", ["south"; "south"; "east"])].

(** The same course sailed back. *)
Definition course_home (k : string) : list string :=
  opposite <$> reverse (default [] (dict_get course_from_home k)).

Definition course (k k' : string) : list string :=
  course_home k ++ default [] (dict_get course_from_home k').

(** Every exit of [w] is named by one of the four directions and has a way
    back: the island it leads to has the opposite exit, leading back. *)
Definition exits_reversible (w : gmap string Island) : Prop :=
  map_Forall
    (λ k isl,
       Forall (λ e, e.1 ∈ ["north"; "south"; "east"; "west"]
                    ∧ (w !! e.2) ≫= (λ isl', dict_get (exits isl') (opposite e.1))
                      = Some k)
              (exits isl))
    w.

(** Between any two islands of the static world the course leads from the
    first to the second. *)
Definition courses_arrive : Prop :=
  map_Forall
    (λ k _, map_Forall
              (λ k' _, walk k (course k k') = Some k'
                       ∧ Forall (λ d, d ∈ ["north"; "south"; "east"; "west"])
                                (course k k'))
              WORLD)
    WORLD.

(** The moves of the game, as a relation between states. *)
Inductive step (s : State) : State → Prop :=
| step_stay : step s s
| step_move isl d target :
    here s = Some isl →
    dict_get (exits isl) d = Some target →
    step s (mkState (world s) (mkPlayer target (inventory (player s))))
| step_take isl pre x post :
    here s = Some isl →
    items isl = pre ++ x :: post →
    step s (mkState (alter (with_items (pre ++ post)) (location (player s)) (world s))
                    (mkPlayer (location (player s)) (inventory (player s) ++ [x])))
| step_drop isl pre x post :
    here s = Some isl →
    inventory (player s) = pre ++ x :: post →
    step s (mkState (alter (with_items (items isl ++ [x])) (location (player s)) (world s))
                    (mkPlayer (location (player s)) (pre ++ post))).

(** * Properties *)

(** ** Strings and lists *)

Section strings.

Local Open Scope string_scope.
Implicit Types (s t : string).

Lemma lstrip_chars_blank (cs : list string) :
  forallb Str.isspace cs = true → Str.lstrip_chars cs = [].
Proof.
  induction cs as [|c cs IH]; simpl; [done|].
  intros [Hc Hcs]%andb_prop. rewrite Hc. auto.
Qed.

Lemma strip_blank s : blank s = true → Str.strip s = "".
Proof. intros Hb. unfold Str.strip. by rewrite lstrip_chars_blank. Qed.

Lemma tokenize_blank s : blank s = true → tokenize s = [].
Proof. intros Hb. unfold tokenize. by rewrite strip_blank. Qed.

Lemma append_cons c s t : String c s ++ t = String c (s ++ t).
Proof. reflexivity. Qed.

Lemma append_nil s : "" ++ s = s.
Proof. reflexivity. Qed.

Lemma prefix_app s t : String.prefix s t = true ↔ ∃ post, t = s ++ post.
Proof.
  revert t. induction s as [|c s IH]; intros t.
  - destruct t; simpl; split; eauto.
  - destruct t as [|d t]; simpl; [split; [done | by intros [? ?]]|].
    destruct (ascii_dec c d) as [->|Hne].
    + rewrite IH. split; intros [post Hp]; exists post.
      * by rewrite append_cons, Hp.
      * rewrite append_cons in Hp. by simplify_eq.
    + split; [done|]. intros [post Hp]. rewrite append_cons in Hp. by simplify_eq.
Qed.

Lemma str_in_cons needle c hay :
  Str.str_in needle (String c hay)
  = String.prefix needle (String c hay) || Str.str_in needle hay.
Proof. reflexivity. Qed.

(** [needle in hay] holds exactly when [hay] has [needle] as a substring. *)
Lemma str_in_substring needle hay :
  Str.str_in needle hay = true ↔ ∃ pre post, hay = pre ++ needle ++ post.
Proof.
  induction hay as [|c hay IH].
  - change (Str.str_in needle "") with (String.prefix needle "" || false).
    rewrite orb_false_r, prefix_app. split.
    + intros [post ->]. by exists "", post.
    + intros (pre & post & H). destruct pre as [|d pre]; [eauto|].
      by rewrite append_cons in H.
  - rewrite str_in_cons, orb_true_iff, prefix_app, IH. split.
    + intros [[post ->]|(pre & post & ->)]; [by exists "", post|].
      by exists (String c pre), post.
    + intros (pre & post & H). destruct pre as [|d pre].
      * left. eauto.
      * right. rewrite append_cons in H. simplify_eq. eauto.
Qed.

End strings.

Section lists.

Implicit Types (l : list string).

Lemma list_remove_Permutation x l l' : list_remove x l = Some l' → l ≡ₚ x :: l'.
Proof.
  revert l'. induction l as [|y l IH]; intros l'; simpl; [done|].
  case_decide as Hxy.
  - intros; by simplify_eq.
  - destruct (list_remove x l) as [r|]; simpl; [|done].
    intros; simplify_eq. rewrite (IH r eq_refl). apply Permutation_swap.
Qed.

(** Removing a value whose first occurrence is known. *)
Lemma list_remove_first x pre post :
  x ∉ pre → list_remove x (pre ++ x :: post) = Some (pre ++ post).
Proof.
  induction pre as [|y pre IH]; simpl; intros Hx.
  - by rewrite decide_True.
  - apply not_elem_of_cons in Hx as [? ?].
    rewrite decide_False, IH; done.
Qed.

Lemma list_remove_last x l : x ∉ l → list_remove x (l ++ [x]) = Some l.
Proof. intros H. rewrite list_remove_first; [by rewrite app_nil_r | done]. Qed.

(** The head of a comprehension splits the list at its first match. *)
Lemma filter_head_split (P : string → Prop) `{!∀ x, Decision (P x)} l found rest :
  filter P l = found :: rest →
  ∃ pre post, l = (pre ++ found :: post) ∧ Forall (λ z, ¬ P z) pre ∧ P found.
Proof.
  intros Hfl.
  destruct (head_filter_Some P l found) as (pre & post & -> & Hpre); [by rewrite Hfl|].
  exists pre, post. split_and!; [done..|].
  assert (found ∈ filter P (pre ++ found :: post)) as Hin by (rewrite Hfl; left).
  by apply list_elem_of_filter in Hin as [? _].
Qed.

Lemma filter_first_match (P : string → Prop) `{!∀ x, Decision (P x)} pre found post :
  Forall (λ z, ¬ P z) pre → P found →
  filter P (pre ++ found :: post) = found :: filter P post.
Proof.
  intros Hpre Hf. rewrite filter_app, filter_cons_True by done.
  replace (filter P pre) with (@nil string); [done|].
  symmetry. induction Hpre; [done|]. by rewrite filter_cons_False.
Qed.

End lists.

(** ** Running the handlers *)

Section monad.

Context {A B : Type}.
Implicit Types (m : Proc A) (f : A → Proc B).

Lemma bind_run m f s a s1 o1 :
  m s = mkResult (Ret a) s1 o1 →
  (m ≫= f) s = mkResult (outcome (f a s1)) (final (f a s1)) (o1 ++ printed (f a s1)).
Proof. intros H. unfold mbind, Proc_bind, proc_bind. by rewrite H. Qed.

Lemma bind_raise m f s e s1 o1 :
  m s = mkResult (Raise e) s1 o1 → (m ≫= f) s = mkResult (Raise e) s1 o1.
Proof. intros H. unfold mbind, Proc_bind, proc_bind. by rewrite H. Qed.

End monad.

Ltac proc_unfold :=
  unfold mbind, mret, Proc_bind, Proc_ret, proc_bind, proc_ret, title, print,
    print_wrapped, get_player, set_player, world_at, set_items, raise in *.

Ltac proc_simpl := proc_unfold; simpl in *.

(** No line that the game prints, other than the banner itself, reads
    [Victory!]: lines are told apart by their first character. *)
Ltac not_banner H :=
  first
    [ discriminate H
    | by (unfold Str.nl in H; rewrite ?append_cons in H; discriminate H)
    | by (vm_compute in H; discriminate H) ].

Ltac quiet :=
  unfold announces_victory;
  rewrite ?elem_of_cons, ?elem_of_nil;
  let H := fresh in
  intros H; decompose [or] H; clear H;
  repeat match goal with
         | H : @eq Output _ _ |- _ => first [not_banner H | injection H as H]
         | H : False |- _ => destruct H
         end.

Lemma show_location_spec s isl :
  here s = Some isl →
  ∃ out, show_location s = mkResult (Ret tt) s out
         ∧ (announces_victory out → name isl = "Victory!").
Proof.
  unfold here, show_location. intros Hh. proc_simpl. rewrite Hh. simpl.
  destruct (items isl), (exits isl); simpl; eexists; (split; [reflexivity|]);
    quiet; congruence.
Qed.

Lemma show_location_final s : final (show_location s) = s.
Proof.
  destruct (here s) as [isl|] eqn:Hh.
  - destruct (show_location_spec s isl Hh) as (out & -> & _). done.
  - unfold here in Hh. unfold show_location. proc_simpl. by rewrite Hh.
Qed.

Lemma show_instructions_spec s :
  ∃ out, show_instructions s = mkResult (Ret tt) s out ∧ ¬ announces_victory out.
Proof.
  unfold show_instructions. proc_simpl.
  eexists. split; [reflexivity|]. quiet.
Qed.

Lemma handle_inventory_spec s :
  ∃ out, handle_inventory s = mkResult (Ret tt) s out ∧ ¬ announces_victory out.
Proof.
  unfold handle_inventory. proc_simpl.
  destruct (inventory (player s)); simpl.
  - eexists. split; [reflexivity|]. quiet.
  - case_decide; simpl; eexists; (split; [reflexivity|]); quiet.
Qed.

Lemma check_victory_on_move_spec s :
  check_victory_on_move s
  = mkResult (Ret tt) s (if victorious s then victory_out else []).
Proof.
  unfold check_victory_on_move, victorious. proc_simpl.
  by destruct (_ && _).
Qed.

Lemma victory_out_announces : announces_victory victory_out.
Proof. unfold announces_victory, victory_out. set_solver. Qed.

(** *** [handle_go] *)

Lemma handle_go_nil s :
  handle_go [] s = mkResult (Ret tt) s [Print "Go where? Try 'go north' or 'go n'."].
Proof. reflexivity. Qed.

Lemma handle_go_unparsed tok rest s :
  parse_direction tok = None →
  handle_go (tok :: rest) s
  = mkResult (Ret tt) s
      [Print "That's not a direction. Use north/south/east/west (or n/s/e/w)."].
Proof. intros H. unfold handle_go. by rewrite H. Qed.

Lemma handle_go_lost tok rest d s :
  parse_direction tok = Some d →
  here s = None →
  handle_go (tok :: rest) s = mkResult (Raise (KeyError (location (player s)))) s [].
Proof.
  unfold here, handle_go. intros -> Hh. proc_simpl. by rewrite Hh.
Qed.

Lemma handle_go_blocked tok rest d isl s :
  parse_direction tok = Some d →
  here s = Some isl →
  dict_get (exits isl) d = None →
  handle_go (tok :: rest) s = mkResult (Ret tt) s [Print "No passage that way."].
Proof.
  unfold here, handle_go. intros -> Hh Hd. proc_simpl. rewrite Hh. simpl.
  by rewrite Hd.
Qed.

Lemma handle_go_moved tok rest d isl target s :
  parse_direction tok = Some d →
  here s = Some isl →
  dict_get (exits isl) d = Some target →
  handle_go (tok :: rest) s
  = show_location (mkState (world s) (mkPlayer target (inventory (player s)))).
Proof.
  unfold here, handle_go. intros -> Hh Hd.
  erewrite bind_run by reflexivity.
  erewrite bind_run by (unfold world_at; rewrite Hh; reflexivity).
  rewrite Hd. erewrite bind_run by reflexivity. cbn [outcome final printed app].
  by destruct (show_location _).
Qed.

(** *** [handle_take] and [handle_drop] *)

Lemma world_at_here s isl :
  here s = Some isl → world_at (location (player s)) s = mkResult (Ret isl) s [].
Proof. unfold here, world_at. by intros ->. Qed.

Lemma first_match_fresh (P : string → Prop) pre found :
  Forall (λ z, ¬ P z) pre → P found → found ∉ pre.
Proof. rewrite Forall_forall. intros Hpre Hf Hin. by apply (Hpre found). Qed.

Lemma handle_take_nil s : handle_take [] s = mkResult (Ret tt) s [Print "Take what?"].
Proof. reflexivity. Qed.

Lemma handle_take_lost args s :
  args ≠ [] → here s = None →
  handle_take args s = mkResult (Raise (KeyError (location (player s)))) s [].
Proof.
  unfold here, handle_take. intros Ha Hh. destruct args; [done|].
  proc_unfold. cbn [outcome final printed app]. by rewrite Hh.
Qed.

Lemma handle_take_none args s isl :
  args ≠ [] → here s = Some isl →
  filter (is_match (item_of args)) (items isl) = [] →
  handle_take args s = mkResult (Ret tt) s [Print "You don't see that here."].
Proof.
  unfold here, handle_take, item_of. intros Ha Hh Hf. destruct args; [done|].
  proc_unfold. cbn [outcome final printed app]. rewrite Hh.
  cbn [outcome final printed app]. by rewrite Hf.
Qed.

Lemma handle_take_found args s isl pre found post :
  args ≠ [] → here s = Some isl →
  items isl = pre ++ found :: post →
  Forall (λ z, ¬ is_match (item_of args) z) pre →
  is_match (item_of args) found →
  let s' := mkState (alter (with_items (pre ++ post)) (location (player s)) (world s))
                    (mkPlayer (location (player s)) (inventory (player s) ++ [found])) in
  handle_take args s
  = mkResult (Ret tt) s'
      (Print ("You take the " ++ found ++ ".")
       :: (if victorious s' then victory_out else [])).
Proof.
  unfold here, handle_take, item_of, victorious. intros Ha Hh Hi Hpre Hf.
  destruct args as [|a args]; [done|].
  proc_unfold. cbn [outcome final printed app]. rewrite Hh.
  cbn [outcome final printed app].
  rewrite Hi, filter_first_match, list_remove_first by eauto using first_match_fresh.
  cbn [outcome final printed app player location inventory world].
  rewrite andb_comm. by destruct (_ && _).
Qed.

Lemma handle_drop_nil s : handle_drop [] s = mkResult (Ret tt) s [Print "Drop what?"].
Proof. reflexivity. Qed.

Lemma handle_drop_none args s :
  args ≠ [] →
  filter (is_match (item_of args)) (inventory (player s)) = [] →
  handle_drop args s = mkResult (Ret tt) s [Print "You aren't carrying that."].
Proof.
  unfold handle_drop, item_of. intros Ha Hf. destruct args; [done|].
  proc_unfold. cbn [outcome final printed app]. by rewrite Hf.
Qed.

Lemma handle_drop_found args s isl pre found post :
  args ≠ [] → here s = Some isl →
  inventory (player s) = pre ++ found :: post →
  Forall (λ z, ¬ is_match (item_of args) z) pre →
  is_match (item_of args) found →
  handle_drop args s
  = mkResult (Ret tt)
      (mkState (alter (with_items (items isl ++ [found])) (location (player s)) (world s))
               (mkPlayer (location (player s)) (pre ++ post)))
      [Print ("You drop the " ++ found ++ ".")].
Proof.
  unfold here, handle_drop, item_of. intros Ha Hh Hi Hpre Hf.
  destruct args as [|a args]; [done|].
  proc_unfold. cbn [outcome final printed app].
  rewrite Hi, filter_first_match, list_remove_first by eauto using first_match_fresh.
  cbn [outcome final printed app player location inventory world]. rewrite Hh.
  done.
Qed.

(** A drop made where there is no island loses the item: the inventory
    is changed before [WORLD[player.location]] raises. *)
Lemma handle_drop_lost args s pre found post :
  args ≠ [] → here s = None →
  inventory (player s) = pre ++ found :: post →
  Forall (λ z, ¬ is_match (item_of args) z) pre →
  is_match (item_of args) found →
  handle_drop args s
  = mkResult (Raise (KeyError (location (player s))))
      (mkState (world s) (mkPlayer (location (player s)) (pre ++ post))) [].
Proof.
  unfold here, handle_drop, item_of. intros Ha Hh Hi Hpre Hf.
  destruct args as [|a args]; [done|].
  proc_unfold. cbn [outcome final printed app].
  rewrite Hi, filter_first_match, list_remove_first by eauto using first_match_fresh.
  cbn [outcome final printed app player location inventory world]. rewrite Hh.
  done.
Qed.

(** *** [handle_command] *)

Lemma handle_command_eq cmd s :
  handle_command cmd s =
  match tokenize cmd with
  | [] => mkResult (Ret true) s []
  | verb :: args =>
      match classify (Str.lower verb) with
      | VGo => (handle_go args;; check_victory_on_move;; mret true) s
      | VDirection => (handle_go [Str.lower verb];; check_victory_on_move;; mret true) s
      | VLook => (handle_look;; mret true) s
      | VTake => (handle_take args;; mret true) s
      | VDrop => (handle_drop args;; mret true) s
      | VInventory => (handle_inventory;; mret true) s
      | VHelp => (handle_help;; mret true) s
      | VQuit => mkResult (Ret false) s [Print "Fair winds, captain."]
      | VUnknown =>
          mkResult (Ret true) s
            [Print "I don't understand that command. Type 'help' for options."]
      end
  end.
Proof.
  unfold handle_command, classify. destruct (tokenize cmd); [done|].
  cbv zeta. repeat case_bool_decide; done.
Qed.

Lemma then_ret (m : Proc unit) (b : bool) s s' out :
  m s = mkResult (Ret tt) s' out → (m;; mret b) s = mkResult (Ret b) s' out.
Proof.
  intros H. erewrite bind_run by done. cbn. by rewrite app_nil_r.
Qed.

Lemma then_ret_raise (m : Proc unit) (b : bool) s e s' out :
  m s = mkResult (Raise e) s' out → (m;; mret b) s = mkResult (Raise e) s' out.
Proof. intros H. by erewrite bind_raise. Qed.

Lemma move_run args s s' out :
  handle_go args s = mkResult (Ret tt) s' out →
  (handle_go args;; check_victory_on_move;; mret true) s
  = mkResult (Ret true) s' (out ++ (if victorious s' then victory_out else [])).
Proof.
  intros H. erewrite bind_run by done.
  erewrite then_ret by apply check_victory_on_move_spec. done.
Qed.

Lemma move_run_raise args s e s' out :
  handle_go args s = mkResult (Raise e) s' out →
  (handle_go args;; check_victory_on_move;; mret true) s = mkResult (Raise e) s' out.
Proof. intros H. by erewrite bind_raise. Qed.

Lemma final_then {A B} (m : Proc A) (f : A → Proc B) s :
  (∀ a s1, final (f a s1) = s1) → final ((m ≫= f) s) = final (m s).
Proof.
  intros Hf. unfold mbind, Proc_bind, proc_bind.
  destruct (outcome (m s)); simpl; auto.
Qed.

Lemma final_move args s :
  final ((handle_go args;; check_victory_on_move;; mret true) s) = final (handle_go args s).
Proof.
  apply final_then. intros _ s1. rewrite final_then by done.
  by rewrite check_victory_on_move_spec.
Qed.

Lemma final_command cmd s :
  final (handle_command cmd s) =
  match tokenize cmd with
  | [] => s
  | verb :: args =>
      match classify (Str.lower verb) with
      | VGo => final (handle_go args s)
      | VDirection => final (handle_go [Str.lower verb] s)
      | VTake => final (handle_take args s)
      | VDrop => final (handle_drop args s)
      | _ => s
      end
  end.
Proof.
  rewrite handle_command_eq. destruct (tokenize cmd) as [|verb args]; [done|].
  destruct (classify _); rewrite ?final_move; try done;
    rewrite final_then by done;
    first [ done
          | apply show_location_final
          | by destruct (handle_inventory_spec s) as (out & -> & _)
          | by destruct (show_instructions_spec s) as (out & -> & _) ].
Qed.

(** ** The handlers refine the step relation *)

Lemma handle_go_step args s : step s (final (handle_go args s)).
Proof.
  destruct args as [|tok rest]; [constructor|].
  destruct (parse_direction tok) as [d|] eqn:Hp;
    [|rewrite handle_go_unparsed by done; constructor].
  destruct (here s) as [isl|] eqn:Hh;
    [|erewrite handle_go_lost by done; constructor].
  destruct (dict_get (exits isl) d) as [target|] eqn:Hd;
    [|erewrite handle_go_blocked by done; constructor].
  erewrite handle_go_moved, show_location_final by done.
  by econstructor.
Qed.

Lemma handle_take_step args s : step s (final (handle_take args s)).
Proof.
  destruct args as [|a args'] eqn:Ha; [constructor|]. rewrite <- Ha.
  assert (args ≠ []) as Hne by (by rewrite Ha). clear Ha.
  destruct (here s) as [isl|] eqn:Hh;
    [|rewrite handle_take_lost by done; constructor].
  destruct (filter (is_match (item_of args)) (items isl)) as [|found rest] eqn:Hf;
    [erewrite handle_take_none by done; constructor|].
  apply filter_head_split in Hf as (pre & post & Hi & Hpre & Hm).
  erewrite handle_take_found by done. by econstructor.
Qed.

Lemma handle_drop_step args s : is_Some (here s) → step s (final (handle_drop args s)).
Proof.
  intros [isl Hh].
  destruct args as [|a args'] eqn:Ha; [constructor|]. rewrite <- Ha.
  assert (args ≠ []) as Hne by (by rewrite Ha). clear Ha.
  destruct (filter (is_match (item_of args)) (inventory (player s)))
    as [|found rest] eqn:Hf;
    [erewrite handle_drop_none by done; constructor|].
  apply filter_head_split in Hf as (pre & post & Hi & Hpre & Hm).
  erewrite handle_drop_found by done. by econstructor.
Qed.

Lemma handle_command_step cmd s :
  is_Some (here s) → step s (final (handle_command cmd s)).
Proof.
  intros Hh. rewrite final_command.
  destruct (tokenize cmd) as [|verb args]; [constructor|].
  destruct (classify _);
    auto using handle_go_step, handle_take_step, handle_drop_step, step_stay.
Qed.

(** ** Invariants of the step relation *)

Section world.

Implicit Types (w : gmap string Island) (s : State).

Lemma alter_as_insert w k isl (f : Island → Island) :
  w !! k = Some isl → alter f k w = <[k := f isl]> (delete k w).
Proof.
  intros Hk. apply map_eq. intros j. destruct (decide (k = j)) as [<-|Hne].
  - by rewrite lookup_alter_eq, lookup_insert_eq, Hk.
  - by rewrite lookup_alter_ne, lookup_insert_ne, lookup_delete_ne.
Qed.

Lemma shelves_lookup w k isl :
  w !! k = Some isl →
  (items ∘ snd) <$> map_to_list w
  ≡ₚ items isl :: ((items ∘ snd) <$> map_to_list (delete k w)).
Proof. intros Hk. by rewrite <- (map_to_list_delete w k isl Hk). Qed.

Lemma shelves_alter w k isl l :
  w !! k = Some isl →
  (items ∘ snd) <$> map_to_list (alter (with_items l) k w)
  ≡ₚ l :: ((items ∘ snd) <$> map_to_list (delete k w)).
Proof.
  intros Hk. rewrite (alter_as_insert w k isl) by done.
  by rewrite map_to_list_insert by apply lookup_delete_eq.
Qed.

Lemma concat_Permutation (ls ls' : list (list string)) :
  ls ≡ₚ ls' → List.concat ls ≡ₚ List.concat ls'.
Proof.
  induction 1 as [|l ls ls' _ IH|l1 l2 ls|ls1 ls2 ls3 _ IH1 _ IH2]; simpl.
  - done.
  - by rewrite IH.
  - by rewrite !(assoc app), (comm app l2 l1).
  - by rewrite IH1.
Qed.

Lemma layout_alter w k l : layout <$> alter (with_items l) k w = layout <$> w.
Proof.
  rewrite (fmap_alter layout (with_items l) id) by done.
  by apply alter_id.
Qed.

Lemma same_layout_lookup w w' k isl :
  layout <$> w = layout <$> w' → w !! k = Some isl →
  ∃ isl', w' !! k = Some isl' ∧ layout isl' = layout isl.
Proof.
  intros Hl Hk.
  assert ((layout <$> w') !! k = Some (layout isl)) as Hk'
    by (by rewrite <- Hl, lookup_fmap, Hk).
  rewrite lookup_fmap in Hk'. destruct (w' !! k) as [isl'|]; [|done].
  simpl in Hk'. exists isl'. split; congruence.
Qed.

Lemma dict_get_elem_of {V} (d : list (string * V)) k v :
  dict_get d k = Some v → (k, v) ∈ d.
Proof.
  induction d as [|[k' v'] d IH]; simpl; [done|].
  case_decide; intros; simplify_eq; [left | right; auto].
Qed.

Lemma WORLD_exits_closed : exits_closed WORLD.
Proof. unfold exits_closed. apply (bool_decide_unpack _). vm_compute. reflexivity. Qed.

Lemma game_state_exit s isl d target :
  game_state s → here s = Some isl → dict_get (exits isl) d = Some target →
  is_Some (world s !! target).
Proof.
  intros [Hl _] Hh Hd.
  destruct (same_layout_lookup _ _ _ _ Hl Hh) as (isl' & Hk' & Hisl').
  assert (exits isl' = exits isl) as He by (unfold layout in Hisl'; congruence).
  pose proof (WORLD_exits_closed _ _ Hk') as Hc. simpl in Hc. rewrite He in Hc.
  apply dict_get_elem_of in Hd.
  rewrite Forall_forall in Hc. destruct (Hc _ Hd) as [t Ht]. simpl in Ht.
  assert ((layout <$> world s) !! target = Some (layout t)) as Hs
    by (by rewrite Hl, lookup_fmap, Ht).
  rewrite lookup_fmap in Hs. by destruct (world s !! target).
Qed.

Lemma game_state_step s s' : game_state s → step s s' → game_state s'.
Proof.
  intros Hg Hstep. pose proof Hg as [Hl Hh].
  destruct Hstep as [|isl d target Hi Hd|isl pre x post Hi _|isl pre x post Hi _];
    [done|split; unfold here; simpl..].
  - done.
  - by eapply game_state_exit.
  - by rewrite layout_alter.
  - by rewrite lookup_alter_eq, fmap_is_Some.
  - by rewrite layout_alter.
  - by rewrite lookup_alter_eq, fmap_is_Some.
Qed.

Lemma take_Permutation (inv pre post others : list string) x :
  (inv ++ [x]) ++ (pre ++ post) ++ others ≡ₚ inv ++ (pre ++ x :: post) ++ others.
Proof.
  repeat (rewrite <- ?Permutation_middle; simpl).
  by rewrite ?app_nil_r, <- ?(assoc app).
Qed.

Lemma drop_Permutation (shelf pre post others : list string) x :
  (pre ++ post) ++ (shelf ++ [x]) ++ others ≡ₚ (pre ++ x :: post) ++ shelf ++ others.
Proof.
  repeat (rewrite <- ?Permutation_middle; simpl).
  by rewrite ?app_nil_r, <- ?(assoc app).
Qed.

Lemma holdings_step s s' : step s s' → holdings s' ≡ₚ holdings s.
Proof.
  unfold here.
  intros [|isl d target Hi Hd|isl pre x post Hi Hit|isl pre x post Hi Hinv];
    [done..| |]; unfold holdings, containers; simpl.
  - rewrite (concat_Permutation _ _ (shelves_alter _ _ _ _ Hi)).
    rewrite (concat_Permutation _ _ (shelves_lookup _ _ _ Hi)). simpl.
    rewrite Hit. apply take_Permutation.
  - rewrite (concat_Permutation _ _ (shelves_alter _ _ _ _ Hi)).
    rewrite (concat_Permutation _ _ (shelves_lookup _ _ _ Hi)). simpl.
    rewrite Hinv. apply drop_Permutation.
Qed.

Lemma after_app cmds cmds' s : after (cmds ++ cmds') s = after cmds' (after cmds s).
Proof. apply foldl_app. Qed.

Lemma after_invariant cmds s :
  game_state s →
  game_state (after cmds s) ∧ holdings (after cmds s) ≡ₚ holdings s.
Proof.
  revert s. induction cmds as [|cmd cmds IH]; intros s Hg; [done|].
  assert (step s (final (handle_command cmd s))) as Hstep
    by (apply handle_command_step, Hg).
  destruct (IH _ (game_state_step _ _ Hg Hstep)) as [Hg' Hp].
  split; [done|]. simpl. by rewrite Hp, (holdings_step _ _ Hstep).
Qed.

Lemma initial_game_state : game_state initial_state.
Proof. split; [done|]. eexists. by vm_compute. Qed.

Lemma initial_holdings_NoDup : NoDup (holdings initial_state).
Proof. apply (bool_decide_unpack _). vm_compute. reflexivity. Qed.

Lemma elem_of_concat (ls : list (list string)) x :
  x ∈ List.concat ls ↔ ∃ l, l ∈ ls ∧ x ∈ l.
Proof.
  induction ls as [|l ls IH]; simpl.
  - split; [by intros ?%elem_of_nil | by intros (? & ?%elem_of_nil & _)].
  - rewrite elem_of_app, IH. split.
    + intros [?|(c & ? & ?)]; [exists l | exists c]; split; auto; by constructor.
    + intros (c & [->|?]%elem_of_cons & ?); eauto.
Qed.

Lemma filter_none {X} (P : X → Prop) `{!∀ x, Decision (P x)} (l : list X) :
  (∀ x, x ∈ l → ¬ P x) → filter P l = [].
Proof.
  induction l as [|x l IH]; [done|]. intros Hl.
  rewrite filter_cons_False by (apply Hl; left).
  apply IH. intros y Hy. apply Hl. by right.
Qed.

(** In a family of lists whose concatenation has no repetition, an element
    of the concatenation lies in one list of the family only. *)
Lemma sole_owner (ls : list (list string)) x :
  NoDup (List.concat ls) → x ∈ List.concat ls →
  length (filter (λ c, x ∈ c) ls) = 1.
Proof.
  induction ls as [|l ls IH]; simpl; [by intros _ ?%elem_of_nil|].
  intros (Hl & Hsep & Hls)%NoDup_app [Hx|Hx]%elem_of_app.
  - rewrite filter_cons_True by done. simpl. f_equal.
    rewrite filter_none; [done|]. intros c Hc Hxc.
    apply (Hsep x Hx), elem_of_concat. eauto.
  - rewrite filter_cons_False by (intros Hxl; by apply (Hsep x Hxl)).
    by apply IH.
Qed.

End world.

(** ** Verbs *)

Ltac in_literal H :=
  repeat (apply elem_of_cons in H as [->|H]); [..|by apply elem_of_nil in H].

Lemma classify_move v :
  v ∈ ["go"; "move"; "n"; "s"; "e"; "w"; "north"; "south"; "east"; "west"]
  ↔ classify v = VGo ∨ classify v = VDirection.
Proof.
  split.
  - intros H. in_literal H; vm_compute; auto.
  - unfold classify, GO_VERBS, DIRECTION_VERBS.
    repeat case_bool_decide; intros [?|?]; try done; set_solver.
Qed.

Lemma classify_go v : classify v = VGo ↔ v = "go" ∨ v = "move".
Proof.
  split.
  - unfold classify, GO_VERBS. repeat case_bool_decide; try done. set_solver.
  - intros [->| ->]; by vm_compute.
Qed.

Lemma classify_direction v : classify v = VDirection → is_Some (parse_direction v).
Proof.
  unfold classify, DIRECTION_VERBS. repeat case_bool_decide; try done. intros _.
  assert (v ∈ ["n"; "s"; "e"; "w"; "north"; "south"; "east"; "west"]) as Hv
    by set_solver.
  in_literal Hv; eexists; by vm_compute.
Qed.

Lemma classify_take v : v ∈ ["take"; "get"; "pick"] ↔ classify v = VTake.
Proof.
  split.
  - intros H. in_literal H; by vm_compute.
  - unfold classify, TAKE_VERBS. repeat case_bool_decide; try done. set_solver.
Qed.

Lemma classify_drop v : v = "drop" ↔ classify v = VDrop.
Proof.
  split; [intros ->; by vm_compute|].
  unfold classify. repeat case_bool_decide; done.
Qed.

Lemma classify_quit v : (v = "quit" ∨ v = "exit") ↔ classify v = VQuit.
Proof.
  split; [intros [->| ->]; by vm_compute|].
  unfold classify, QUIT_VERBS. repeat case_bool_decide; try done. set_solver.
Qed.

(** ** The handlers on the states of the game *)

Lemma WORLD_names : map_Forall (λ _ isl, name isl ≠ "Victory!") WORLD.
Proof. apply (bool_decide_unpack _). vm_compute. reflexivity. Qed.

Lemma game_state_name s k isl :
  game_state s → world s !! k = Some isl → name isl ≠ "Victory!".
Proof.
  intros [Hl _] Hk.
  destruct (same_layout_lookup _ _ _ _ Hl Hk) as (isl' & Hk' & Hisl').
  replace (name isl) with (name isl') by (unfold layout in Hisl'; congruence).
  apply (WORLD_names _ _ Hk').
Qed.

Lemma show_location_quiet s :
  game_state s →
  ∃ out, show_location s = mkResult (Ret tt) s out ∧ ¬ announces_victory out.
Proof.
  intros Hg. destruct (proj2 Hg) as [isl Hh].
  destruct (show_location_spec s isl Hh) as (out & Hout & Hq).
  exists out. split; [done|]. intros Ha. by eapply game_state_name, Hq.
Qed.

Lemma handle_go_quiet args s :
  game_state s →
  ∃ s' out, handle_go args s = mkResult (Ret tt) s' out ∧ ¬ announces_victory out.
Proof.
  intros Hg. destruct (proj2 Hg) as [isl Hh].
  destruct args as [|tok rest]; [eexists _, _; split; [apply handle_go_nil | quiet]|].
  destruct (parse_direction tok) as [d|] eqn:Hp;
    [|eexists _, _; split; [by apply handle_go_unparsed | quiet]].
  destruct (dict_get (exits isl) d) as [target|] eqn:Hd;
    [|eexists _, _; split; [by eapply handle_go_blocked | quiet]].
  erewrite handle_go_moved by done.
  edestruct show_location_quiet as (out & Hout & Hq); [|eauto].
  eapply game_state_step; [done | by econstructor].
Qed.

Lemma handle_drop_quiet args s :
  game_state s →
  ∃ s' out, handle_drop args s = mkResult (Ret tt) s' out ∧ ¬ announces_victory out.
Proof.
  intros [_ [isl Hh]].
  destruct args as [|a args'] eqn:Ha;
    [eexists _, _; split; [apply handle_drop_nil | quiet]|]. rewrite <- Ha.
  assert (args ≠ []) as Hne by (by rewrite Ha). clear Ha.
  destruct (filter (is_match (item_of args)) (inventory (player s)))
    as [|found rest] eqn:Hf;
    [eexists _, _; split; [by apply handle_drop_none | quiet]|].
  apply filter_head_split in Hf as (pre & post & Hi & Hpre & Hm).
  eexists _, _; split; [by eapply handle_drop_found | quiet].
Qed.

(** What a Take does in a state of the game: it is rejected silently, or it
    moves the first match and tests for victory. *)
Lemma handle_take_cases args s isl :
  here s = Some isl →
  (handle_take args s = mkResult (Ret tt) s (printed (handle_take args s))
   ∧ ¬ announces_victory (printed (handle_take args s))
   ∧ (args = [] ∨ ∀ x, x ∈ items isl → ¬ is_match (item_of args) x))
  ∨ (∃ pre found post,
       args ≠ []
       ∧ items isl = pre ++ found :: post
       ∧ Forall (λ z, ¬ is_match (item_of args) z) pre
       ∧ is_match (item_of args) found).
Proof.
  intros Hh.
  destruct args as [|a args'] eqn:Ha.
  { left. rewrite handle_take_nil. split_and!; [done|cbn [printed]; quiet|by left]. }
  rewrite <- Ha. assert (args ≠ []) as Hne by (by rewrite Ha). clear Ha.
  destruct (filter (is_match (item_of args)) (items isl)) as [|found rest] eqn:Hf.
  - left. erewrite handle_take_none by done. split_and!; [done|cbn [printed]; quiet|].
    right. intros x Hx Hm. by eapply filter_nil_not_elem_of.
  - right. apply filter_head_split in Hf as (pre & post & Hi & Hpre & Hm).
    by exists pre, found, post.
Qed.

(** ** Outcomes and announcements *)

Lemma outcome_bind_neq {A B} (m : Proc A) (f : A → Proc B) s (b : B) :
  (∀ a s1, outcome (f a s1) ≠ Ret b) → outcome ((m ≫= f) s) ≠ Ret b.
Proof.
  intros Hf. unfold mbind, Proc_bind, proc_bind.
  destruct (outcome (m s)); simpl; [apply Hf | done].
Qed.

Lemma continues_or_raises cmd s verb args :
  tokenize cmd = verb :: args →
  classify (Str.lower verb) ≠ VQuit →
  outcome (handle_command cmd s) ≠ Ret false.
Proof.
  intros Ht Hc. rewrite handle_command_eq, Ht.
  destruct (classify (Str.lower verb)); try done;
    repeat (apply outcome_bind_neq; intros ? ?); done.
Qed.

Lemma announces_app out out' :
  announces_victory (out ++ out') ↔ announces_victory out ∨ announces_victory out'.
Proof. apply elem_of_app. Qed.

Lemma victorious_spec s :
  victorious s = true
  ↔ location (player s) = "Pirate Cove" ∧ has_all_treasure (player s) = true.
Proof. unfold victorious. by rewrite andb_true_iff, bool_decide_eq_true. Qed.

Lemma announces_if_victorious s :
  announces_victory (if victorious s then victory_out else []) ↔ victorious s = true.
Proof.
  destruct (victorious s); split; try done.
  - intros _. apply victory_out_announces.
  - by intros ?%elem_of_nil.
Qed.

(** The result of a command on a state of the game, verb by verb. *)
Lemma move_result args s :
  game_state s →
  ∃ s' out,
    (handle_go args;; check_victory_on_move;; mret true) s
    = mkResult (Ret true) s' (out ++ (if victorious s' then victory_out else []))
    ∧ ¬ announces_victory out.
Proof.
  intros Hg. destruct (handle_go_quiet args s Hg) as (s' & out & Hgo & Hq).
  exists s', out. by rewrite (move_run _ _ _ _ Hgo).
Qed.

Lemma quiet_result (m : Proc unit) s :
  (∃ s' out, m s = mkResult (Ret tt) s' out ∧ ¬ announces_victory out) →
  ∃ s' out, (m;; mret true) s = mkResult (Ret true) s' out ∧ ¬ announces_victory out.
Proof. intros (s' & out & Hm & Hq). exists s', out. by rewrite (then_ret _ _ _ _ _ Hm). Qed.

(** * The claims *)

(** ** Ownership of items *)

(** C1. In a session that starts from the initial state, an item name that
    has appeared in the world (it is held somewhere after the commands
    [before]) occurs, after any further commands [later], in exactly one
    container: the inventory or the item list of one island. *)
Theorem single_ownership (before later : list string) (x : string) :
  x ∈ holdings (after before initial_state) →
  owners x (after (before ++ later) initial_state) = 1.
Proof.
  intros Hx.
  destruct (after_invariant before _ initial_game_state) as [_ Hp0].
  destruct (after_invariant (before ++ later) _ initial_game_state) as [_ Hp].
  unfold owners. apply sole_owner; fold (holdings (after (before ++ later) initial_state)).
  - rewrite Hp. apply initial_holdings_NoDup.
  - by rewrite Hp, <- Hp0.
Qed.

(** ** The world graph *)


(** ** The win condition *)

(** C3. [has_all_treasure] is true exactly when each of the six treasure
    names occurs in the inventory; two inventories that agree on which
    treasure names they hold, whatever their order and their other items,
    get the same answer. *)
Theorem has_all_treasure_spec (p : Player) :
  (has_all_treasure p = true
   ↔ ∀ t, t ∈ ["cutlass"; "compass"; "doubloon"; "rum"; "spyglass"; "map piece"] →
          t ∈ inventory p)
  ∧ (∀ q : Player,
       (∀ t, t ∈ ["cutlass"; "compass"; "doubloon"; "rum"; "spyglass"; "map piece"] →
             (t ∈ inventory q ↔ t ∈ inventory p)) →
       has_all_treasure q = has_all_treasure p).
Proof.
  assert (∀ r, has_all_treasure r = true ↔ ∀ t, t ∈ TREASURE_NAMES → t ∈ inventory r)
    as Hspec.
  { intros r. unfold has_all_treasure, TREASURE_ITEMS.
    rewrite bool_decide_eq_true, elem_of_subseteq.
    by setoid_rewrite elem_of_list_to_set. }
  split; [apply Hspec|]. intros q Hq.
  apply eq_true_iff_eq. rewrite !Hspec.
  split; intros H t Ht; apply (Hq t Ht); auto.
Qed.

(** ** The command interpreter *)

(** C9. A line that is empty or holds only whitespace is a no-op:
    [handle_command] changes nothing, prints nothing and returns the value
    that continues the loop. *)
Theorem blank_line_noop (s : State) (cmd : string) :
  blank cmd = true → handle_command cmd s = mkResult (Ret true) s [].
Proof. intros Hb. by rewrite handle_command_eq, tokenize_blank. Qed.

Lemma quits_classify cmd verb args :
  tokenize cmd = verb :: args → quits cmd ↔ classify (Str.lower verb) = VQuit.
Proof.
  intros Ht. rewrite <- classify_quit. split; [|by exists verb, args].
  intros (v & a & Hv & Hl). rewrite Ht in Hv. by simplify_eq.
Qed.

Lemma handle_command_stops s cmd :
  outcome (handle_command cmd s) = Ret false ↔ quits cmd.
Proof.
  destruct (tokenize cmd) as [|verb args] eqn:Ht.
  { rewrite handle_command_eq, Ht. simpl.
    split; [done|]. intros (v & a & Hv & _). congruence. }
  rewrite (quits_classify _ _ _ Ht). split.
  - intros Ho. destruct (decide (classify (Str.lower verb) = VQuit)); [done|].
    by destruct (continues_or_raises cmd s verb args).
  - intros Hc. by rewrite handle_command_eq, Ht, Hc.
Qed.

Lemma handle_command_continues s cmd :
  game_state s → ¬ quits cmd → outcome (handle_command cmd s) = Ret true.
Proof.
  intros Hg Hq. rewrite handle_command_eq.
  destruct (tokenize cmd) as [|verb args] eqn:Ht; [done|].
  rewrite (quits_classify _ _ _ Ht) in Hq. unfold handle_look, handle_help.
  destruct (classify (Str.lower verb)) eqn:Hv; try done.
  - by destruct (move_result args s Hg) as (s' & out & -> & _).
  - by destruct (move_result [Str.lower verb] s Hg) as (s' & out & -> & _).
  - by destruct (quiet_result _ s (ex_intro _ s (show_location_quiet s Hg)))
      as (s' & out & -> & _).
  - destruct (proj2 Hg) as [isl Hh].
    destruct (handle_take_cases args s isl Hh)
      as [(Heq & _)|(pre & found & post & ? & ? & ? & ?)].
    + by rewrite (then_ret _ _ _ _ _ Heq).
    + by erewrite then_ret by (by eapply handle_take_found).
  - by destruct (quiet_result _ s (handle_drop_quiet args s Hg)) as (s' & out & -> & _).
  - by destruct (quiet_result _ s (ex_intro _ s (handle_inventory_spec s)))
      as (s' & out & -> & _).
Qed.

Lemma handle_command_returns s cmd :
  game_state s → ∃ b, outcome (handle_command cmd s) = Ret b.
Proof.
  intros Hg. destruct (outcome (handle_command cmd s)) as [b|e] eqn:Ho; [eauto|].
  assert (¬ quits cmd) as Hq.
  { intros Hq%(handle_command_stops s). congruence. }
  rewrite handle_command_continues in Ho by done. done.
Qed.

(** The loop of [start_game] ends without an exception on any sequence of
    lines, whether a [quit] or the end of the input stops it. *)
Lemma game_loop_returns lines s :
  game_state s → outcome (game_loop lines s) = Ret tt.
Proof.
  revert s. induction lines as [|cmd lines IH]; intros s Hg; [done|].
  destruct (handle_command_returns s cmd Hg) as [b Hb].
  assert (game_state (final (handle_command cmd s))) as Hg'.
  { eapply game_state_step; [done|]. apply handle_command_step, Hg. }
  change (game_loop (cmd :: lines))
    with (handle_command cmd ≫= λ continue : bool,
            if continue then game_loop lines else mret tt).
  unfold mbind, Proc_bind, proc_bind. rewrite Hb.
  destruct b; cbn [outcome]; [by apply IH | done].
Qed.

(** C8. [handle_command] returns the value that stops the loop exactly when
    the first token of the line, lowercased, is [quit] or [exit]; on every
    other line, whatever it asks and whether or not it is rejected, a state
    of the game makes it return the value that continues the loop, so that
    the loop of [start_game] ends on any input without an exception.  So
    [quit], [  EXIT  now] and [Quit] followed by a no-break space stop the
    loop in every state. *)
Theorem quit_iff (s : State) (cmd : string) :
  (outcome (handle_command cmd s) = Ret false ↔ quits cmd)
  ∧ (game_state s → ¬ quits cmd → outcome (handle_command cmd s) = Ret true)
  ∧ (∀ lines w, game_state (mkState w new_player) →
                outcome (start_game lines w) = Ret tt)
  ∧ (outcome (handle_command "quit" s) = Ret false
     ∧ outcome (handle_command "  EXIT  now" s) = Ret false
     ∧ outcome (handle_command ("Quit" ++ Str.utf8 160) s) = Ret false).
Proof.
  split_and!.
  - apply handle_command_stops.
  - apply handle_command_continues.
  - intros lines w Hg. unfold start_game.
    destruct (show_location_quiet _ Hg) as (out & Hout & _).
    rewrite (bind_run _ _ _ _ _ _ Hout). cbn [outcome].
    by apply game_loop_returns.
  - apply handle_command_stops. exists "quit", []. split; [by vm_compute|by left].
  - apply handle_command_stops. exists "EXIT", ["now"].
    split; [by vm_compute|right; by vm_compute].
  - apply handle_command_stops. exists "Quit", [].
    split; [by vm_compute|left; by vm_compute].
Qed.

Lemma transcript_app cmds cmds' s :
  transcript (cmds ++ cmds') s = transcript cmds s ++ transcript cmds' (after cmds s).
Proof.
  revert s. induction cmds as [|cmd cmds IH]; intros s; simpl; [done|].
  by rewrite IH, (assoc app).
Qed.

Lemma banners_app out out' : banners (out ++ out') = banners out + banners out'.
Proof. unfold banners. by rewrite filter_app, length_app. Qed.

(** A rejected move made at home with the six treasures announces victory
    again: nothing remembers that it was announced. *)
Lemma go_nowhere_victorious s :
  victorious s = true →
  handle_command "go" s
  = mkResult (Ret true) s (Print "Go where? Try 'go north' or 'go n'." :: victory_out).
Proof.
  intros Hv. rewrite handle_command_eq.
  change (tokenize "go") with ["go"]. cbv beta iota.
  change (classify (Str.lower "go")) with VGo. cbv beta iota.
  rewrite (move_run _ _ _ _ (handle_go_nil s)). by rewrite Hv.
Qed.

Lemma banners_go_again n s :
  victorious s = true → banners (transcript (replicate n "go") s) = n.
Proof.
  intros Hv. induction n as [|n IH]; simpl; [done|].
  rewrite go_nowhere_victorious by done. cbn [printed final].
  change (Print "Go where? Try 'go north' or 'go n'." :: victory_out ++ ?l)
    with ((Print "Go where? Try 'go north' or 'go n'." :: victory_out) ++ l).
  by rewrite banners_app, IH.
Qed.

(** C2. On a state of the game a command announces victory exactly when it
    is a Move command (accepted or rejected) or a Take that succeeds, and
    after it the player stands on Pirate Cove with [has_all_treasure] true.
    No flag remembers an announcement: once the winning session is home,
    each further rejected move announces victory once more. *)
Theorem victory_iff :
  (∀ (s : State) (cmd : string),
     game_state s →
     let r := handle_command cmd s in
     announces_victory (printed r)
     ↔ (is_move cmd ∨ take_succeeds cmd s)
       ∧ location (player (final r)) = "Pirate Cove"
       ∧ has_all_treasure (player (final r)) = true)
  ∧ (∀ n : nat,
       banners (transcript (winning_script ++ replicate n "go") initial_state) = S n).
Proof.
  split.
  - intros s cmd Hg r. subst r. rewrite <- victorious_spec.
    destruct (tokenize cmd) as [|verb args] eqn:Ht.
    { rewrite handle_command_eq, Ht. cbn [printed final]. split.
      - by intros ?%elem_of_nil.
      - intros [[(v & a & ? & _)|(v & a & ? & ? & ? & _)] _]; congruence. }
    assert (is_move cmd ↔ classify (Str.lower verb) = VGo
                           ∨ classify (Str.lower verb) = VDirection) as Hmove.
    { rewrite <- classify_move. split; [|by exists verb, args].
      intros (v & a & Hv & Hl). rewrite Ht in Hv. by simplify_eq. }
    assert (take_succeeds cmd s →
            classify (Str.lower verb) = VTake ∧ args ≠ []
            ∧ ∃ isl x, here s = Some isl ∧ x ∈ items isl ∧ is_match (item_of args) x)
      as Htake.
    { intros (v & a & isl & x & Hv & Hl & ?). rewrite Ht in Hv. simplify_eq.
      split; [by apply classify_take|]. naive_solver. }
    rewrite handle_command_eq, Ht. unfold handle_look, handle_help.
    destruct (classify (Str.lower verb)) eqn:Hc.
    + destruct (move_result args s Hg) as (s' & out & -> & Hq). cbn [printed final].
      rewrite announces_app, announces_if_victorious. naive_solver.
    + destruct (move_result [Str.lower verb] s Hg) as (s' & out & -> & Hq).
      cbn [printed final]. rewrite announces_app, announces_if_victorious. naive_solver.
    + destruct (quiet_result _ s (ex_intro _ s (show_location_quiet s Hg)))
        as (s' & out & -> & Hq). cbn [printed final]. naive_solver.
    + destruct (proj2 Hg) as [isl Hh].
      destruct (handle_take_cases args s isl Hh)
        as [(Heq & Hq & Hno)|(pre & found & post & Hne & Hi & Hpre & Hm)].
      * rewrite (then_ret _ _ _ _ _ Heq). cbn [printed final].
        split; [done|]. intros [[Hmv|Htk] _]; [naive_solver|].
        destruct (Htake Htk) as (_ & Hne & isl' & x & Hh' & Hx & Hm).
        destruct Hno as [?|Hno]; [done|]. rewrite Hh in Hh'. simplify_eq.
        by destruct (Hno x).
      * erewrite then_ret by (by eapply handle_take_found). cbn [printed final].
        change (Print ?a :: ?l) with ([Print a] ++ l).
        rewrite announces_app, announces_if_victorious.
        assert (take_succeeds cmd s) as Htk.
        { exists verb, args, isl, found. split_and!; try done.
          - by apply classify_take.
          - rewrite Hi. apply elem_of_app. right. left. }
        assert (¬ announces_victory [Print ("You take the " ++ found ++ ".")])
          as Hq by quiet.
        naive_solver.
    + destruct (quiet_result _ s (handle_drop_quiet args s Hg)) as (s' & out & -> & Hq).
      cbn [printed final]. naive_solver.
    + destruct (quiet_result _ s (ex_intro _ s (handle_inventory_spec s)))
        as (s' & out & -> & Hq). cbn [printed final]. naive_solver.
    + destruct (quiet_result _ s (ex_intro _ s (show_instructions_spec s)))
        as (s' & out & -> & Hq). cbn [printed final]. naive_solver.
    + cbn [printed final]. split; [quiet|naive_solver].
    + cbn [printed final]. split; [quiet|naive_solver].
  - intros n. rewrite transcript_app, banners_app, banners_go_again.
    + by vm_compute.
    + by vm_compute.
Qed.

(** ** Rejections leave the state alone *)

Lemma go_or_direction v :
  v ∈ ["n"; "s"; "e"; "w"; "north"; "south"; "east"; "west"] → classify v = VDirection.
Proof. intros H. in_literal H; by vm_compute. Qed.

(** C5. A Move command ([go] or [move] with the arguments [margs] that follow
    it, or a bare direction, which is its own argument) whose direction is
    missing, does not parse, or names no exit of the player's island leaves
    the whole state as it was and continues the loop; each of the three
    cases prints a rejection of its own first. *)
Theorem rejected_move_frame
    (s : State) (cmd verb : string) (args margs : list string) :
  tokenize cmd = verb :: args →
  (Str.lower verb ∈ ["go"; "move"] ∧ margs = args)
  ∨ (Str.lower verb ∈ ["n"; "s"; "e"; "w"; "north"; "south"; "east"; "west"]
     ∧ margs = [Str.lower verb]) →
  let r := handle_command cmd s in
  let rejected (msg : string) : Prop :=
    final r = s ∧ outcome r = Ret true ∧ head (printed r) = Some (Print msg) in
  (margs = [] → rejected "Go where? Try 'go north' or 'go n'.")
  ∧ (∀ tok rest, margs = tok :: rest → parse_direction tok = None →
       rejected "That's not a direction. Use north/south/east/west (or n/s/e/w).")
  ∧ (∀ tok rest d isl, margs = tok :: rest → parse_direction tok = Some d →
       here s = Some isl → dict_get (exits isl) d = None →
       rejected "No passage that way.")
  ∧ NoDup ["Go where? Try 'go north' or 'go n'.";
           "That's not a direction. Use north/south/east/west (or n/s/e/w).";
           "No passage that way."].
Proof.
  intros Ht Hverb r rejected.
  assert (r = (handle_go margs;; check_victory_on_move;; mret true) s) as Hr.
  { unfold r. rewrite handle_command_eq, Ht.
    destruct Hverb as [[Hv ->]|[Hv ->]].
    - replace (classify (Str.lower verb)) with VGo; [done|].
      symmetry. apply classify_go. in_literal Hv; auto.
    - by rewrite (go_or_direction _ Hv). }
  unfold rejected. rewrite Hr. split_and!.
  - intros ->. by rewrite (move_run _ _ _ _ (handle_go_nil s)).
  - intros tok rest -> Hp.
    by rewrite (move_run _ _ _ _ (handle_go_unparsed tok rest s Hp)).
  - intros tok rest d isl -> Hp Hh Hd.
    by rewrite (move_run _ _ _ _ (handle_go_blocked tok rest d isl s Hp Hh Hd)).
  - apply (bool_decide_unpack _). by vm_compute.
Qed.

(** ** Take and Drop *)

Lemma is_match_contains args i :
  is_match (item_of args) i ↔ contains_ci i (Str.join " " args).
Proof. unfold is_match, item_of, contains_ci. apply str_in_substring. Qed.

Lemma no_match_filter args (l : list string) :
  (∀ x, x ∈ l → ¬ contains_ci x (Str.join " " args)) →
  filter (is_match (item_of args)) l = [].
Proof.
  intros Hl. apply filter_none. intros x Hx Hm.
  by apply (Hl x Hx), is_match_contains.
Qed.

(** C4. A Take with a non-empty argument for which the island's items are
    [pre ++ found :: post], where no item of [pre] contains the argument as a
    case-insensitive substring and [found] does, takes [found], whatever
    [post] holds: the island keeps [pre ++ post], the inventory gets [found]
    at its end, and nothing else changes. *)
Theorem take_first_match
    (s : State) (args : list string) (isl : Island)
    (pre post : list string) (found : string) :
  args ≠ [] →
  here s = Some isl →
  items isl = pre ++ found :: post →
  (∀ z, z ∈ pre → ¬ contains_ci z (Str.join " " args)) →
  contains_ci found (Str.join " " args) →
  let r := handle_take args s in
  outcome r = Ret tt
  ∧ head (printed r) = Some (Print ("You take the " ++ found ++ "."))
  ∧ world (final r) !! location (player s) = Some (with_items (pre ++ post) isl)
  ∧ (∀ k, k ≠ location (player s) → world (final r) !! k = world s !! k)
  ∧ player (final r)
    = mkPlayer (location (player s)) (inventory (player s) ++ [found]).
Proof.
  intros Hne Hh Hi Hpre Hf r. unfold r.
  erewrite handle_take_found; [|done..| |by apply is_match_contains].
  - cbn [outcome final printed world player head]. split_and!; try done.
    + unfold here in Hh. by rewrite lookup_alter_eq, Hh.
    + intros k Hk. by rewrite lookup_alter_ne.
  - apply Forall_forall. intros z Hz Hm. by apply (Hpre z Hz), is_match_contains.
Qed.

(** C6. A Take whose argument no item of the player's island contains, and
    a Drop whose argument no carried item contains, leave the whole state as
    it was: every item list, the inventory and the location. *)
Theorem failed_take_drop_frame
    (s : State) (cmd verb : string) (args : list string) :
  tokenize cmd = verb :: args →
  (Str.lower verb ∈ ["take"; "get"; "pick"] →
   (∀ isl x, here s = Some isl → x ∈ items isl →
             ¬ contains_ci x (Str.join " " args)) →
   final (handle_command cmd s) = s)
  ∧ (Str.lower verb = "drop" →
     (∀ x, x ∈ inventory (player s) → ¬ contains_ci x (Str.join " " args)) →
     final (handle_command cmd s) = s).
Proof.
  intros Ht. rewrite final_command, Ht. split.
  - intros Hv%classify_take Hno. rewrite Hv.
    destruct args as [|a args'] eqn:Ha; [done|]. rewrite <- Ha in *.
    assert (args ≠ []) as Hne by (by rewrite Ha). clear Ha.
    destruct (here s) as [isl|] eqn:Hh.
    + erewrite handle_take_none; [done..|]. apply no_match_filter. eauto.
    + by rewrite handle_take_lost.
  - intros Hv%classify_drop Hno. rewrite Hv.
    destruct args as [|a args'] eqn:Ha; [done|]. rewrite <- Ha in *.
    assert (args ≠ []) as Hne by (by rewrite Ha). clear Ha.
    by rewrite handle_drop_none by (done || by apply no_match_filter).
Qed.

Lemma first_match_split args (l : list string) x :
  first_match args l = Some x →
  ∃ pre post, l = pre ++ x :: post
              ∧ Forall (λ z, ¬ is_match (item_of args) z) pre
              ∧ is_match (item_of args) x.
Proof.
  unfold first_match. intros Hm.
  destruct (filter _ l) as [|y rest] eqn:Hf; simplify_eq/=.
  by apply filter_head_split in Hf.
Qed.

(** C10, amended. When the Take with [targs] selects [x] on the player's
    island and [x] is also the first carried item that the argument of the
    Drop with [dargs] matches, the two commands restore ownership: every
    island holds the items it held, the inventory has the members it had,
    and [x] is back on the player's island, at the end of its list. *)
Theorem take_drop_restores
    (s : State) (isl : Island) (x : string) (targs dargs : list string) :
  here s = Some isl →
  targs ≠ [] →
  first_match targs (items isl) = Some x →
  dargs ≠ [] →
  first_match dargs (inventory (player s) ++ [x]) = Some x →
  let s' := take_then_drop targs dargs s in
  same_ownership s s'
  ∧ location (player s') = location (player s)
  ∧ inventory (player s') ≡ₚ inventory (player s)
  ∧ (∃ pre post,
       items isl = pre ++ x :: post
       ∧ world s' !! location (player s) = Some (with_items ((pre ++ post) ++ [x]) isl))
  ∧ (∀ k, k ≠ location (player s) → world s' !! k = world s !! k).
Proof.
  intros Hh Ht (pre & post & Hi & Hpre & Hm)%first_match_split
         Hd (pre' & post' & Hinv & Hpre' & Hm')%first_match_split s'.
  assert (pre' ++ post' ≡ₚ inventory (player s)) as Hperm.
  { apply (Permutation_cons_inv (a := x)).
    by rewrite Permutation_middle, <- Hinv, <- Permutation_cons_append. }
  unfold s', take_then_drop.
  erewrite (handle_take_found targs s) by done. cbn [final].
  erewrite handle_drop_found; cbn [player world inventory location];
    [|done|unfold here; cbn [player world location];
           by rewrite lookup_alter_eq; unfold here in Hh; rewrite Hh
     |done..].
  cbn [final player world inventory location items with_items].
  unfold here in Hh.
  assert (∀ k, k ≠ location (player s) →
               alter (with_items ((pre ++ post) ++ [x])) (location (player s))
                 (alter (with_items (pre ++ post)) (location (player s)) (world s)) !! k
               = world s !! k) as Hother.
  { intros k Hk. by rewrite !lookup_alter_ne. }
  assert (alter (with_items ((pre ++ post) ++ [x])) (location (player s))
            (alter (with_items (pre ++ post)) (location (player s)) (world s))
          !! location (player s)
          = Some (with_items ((pre ++ post) ++ [x]) isl)) as Hloc.
  { by rewrite !lookup_alter_eq, Hh. }
  split_and!; [split| | |by exists pre, post|]; try done.
  - intros k y. unfold lies_at. cbn [world].
    destruct (decide (k = location (player s))) as [->|Hk].
    + rewrite Hloc, Hh. split; intros (i & Hi' & Hy); simplify_eq; eexists;
        (split; [done|]); rewrite ?Hi in *; simpl in *; set_solver.
    + by rewrite Hother.
  - intros y. cbn [player inventory]. by rewrite Hperm.
Qed.

(** ** Scenarios of a session *)

(** * Further properties of the program *)

(** ** Tokens *)

Section tokens.

Local Open Scope string_scope.
Implicit Types (s t cur c : string) (cs ds : list string).

Lemma append_nil_r (s : string) : s ++ "" = s.
Proof. induction s as [|c s IH]; [done|]. by rewrite append_cons, IH. Qed.

Lemma append_assoc (s t u : string) : (s ++ t) ++ u = s ++ t ++ u.
Proof. induction s as [|c s IH]; [done|]. by rewrite !append_cons, IH. Qed.

Lemma append_eq_nil (s t : string) : s ++ t = "" → s = "" ∧ t = "".
Proof. destruct s; [done|]. by rewrite append_cons. Qed.

Lemma character_glyph c : character c = true → glyph c = true.
Proof. destruct c as [|b t]; [done|]. simpl. by intros [_ ?]%andb_prop. Qed.

Lemma characters_well_formed cs :
  Forall (λ c, character c = true) cs → well_formed cs.
Proof. destruct 1 as [|c cs Hc Hcs]; [done|]. split; [by apply character_glyph|done]. Qed.

Lemma chars_from_nil cur : cur ≠ "" → Str.chars_from cur "" = [cur].
Proof. by destruct cur. Qed.

Lemma chars_from_continues t : ∀ cur s,
  continues t = true → Str.chars_from cur (t ++ s) = Str.chars_from (cur ++ t) s.
Proof.
  induction t as [|b t IH]; intros cur s Ht.
  - by rewrite append_nil, append_nil_r.
  - simpl in Ht. apply andb_prop in Ht as [Hb Ht].
    rewrite append_cons. cbn [Str.chars_from]. rewrite Hb, (IH _ _ Ht).
    by rewrite append_assoc.
Qed.

Lemma chars_from_glyph b t cur s :
  continues t = true →
  Str.chars_from cur (String b t ++ s)
  = if Str.is_continuation b then Str.chars_from (cur ++ String b t) s
    else match cur with
         | "" => Str.chars_from (String b t) s
         | _ => cur :: Str.chars_from (String b t) s
         end.
Proof.
  intros Ht. rewrite append_cons. cbn [Str.chars_from].
  destruct (Str.is_continuation b).
  - rewrite (chars_from_continues _ _ _ Ht). by rewrite append_assoc.
  - destruct cur; by rewrite (chars_from_continues _ _ _ Ht).
Qed.

Lemma chars_from_cat cs : ∀ cur,
  Forall (λ c, character c = true) cs → cur ≠ "" →
  Str.chars_from cur (Str.cat cs) = cur :: cs.
Proof.
  induction cs as [|c cs IH]; intros cur Hcs Hcur.
  - by apply chars_from_nil.
  - apply Forall_cons in Hcs as [Hc Hcs]. destruct c as [|b t]; [done|].
    simpl in Hc. apply andb_prop in Hc as [Hb Ht].
    cbn [Str.cat]. rewrite (chars_from_glyph _ _ _ _ Ht).
    apply negb_true_iff in Hb. rewrite Hb.
    rewrite (IH _ Hcs) by done. by destruct cur.
Qed.

(** Reading the characters of a string undoes their concatenation. *)
Lemma chars_cat cs : well_formed cs → Str.chars (Str.cat cs) = cs.
Proof.
  destruct cs as [|c cs]; [done|]. intros [Hc Hcs].
  destruct c as [|b t]; [done|]. simpl in Hc.
  unfold Str.chars. cbn [Str.cat]. rewrite (chars_from_glyph _ _ _ _ Hc).
  rewrite append_nil. rewrite (chars_from_cat _ _ Hcs) by done.
  by destruct (Str.is_continuation b).
Qed.

Lemma continues_app (s t : string) :
  continues (s ++ t) = continues s && continues t.
Proof.
  induction s as [|b s IH]; [done|].
  rewrite append_cons. simpl. by rewrite IH, andb_assoc.
Qed.

Lemma chars_from_well_formed s : ∀ b t,
  continues t = true →
  ∃ t' rest, Str.chars_from (String b t) s = String b t' :: rest
             ∧ continues t' = true
             ∧ Forall (λ c, character c = true) rest.
Proof.
  induction s as [|a s IH]; intros b t Ht.
  - exists t, []. by split_and!.
  - cbn [Str.chars_from]. destruct (Str.is_continuation a) eqn:Ha.
    + rewrite append_cons. apply IH.
      rewrite continues_app, Ht. simpl. by rewrite Ha.
    + destruct (IH a "" eq_refl) as (t' & rest & -> & Ht' & Hrest).
      exists t, (String a t' :: rest). split_and!; [done..|].
      apply Forall_cons. split; [|done]. simpl. by rewrite Ha, Ht'.
Qed.

Lemma chars_well_formed s : well_formed (Str.chars s).
Proof.
  destruct s as [|b s]; [done|]. unfold Str.chars. cbn [Str.chars_from].
  rewrite append_nil.
  destruct (chars_from_well_formed s b "" eq_refl) as (t' & rest & Hc & Ht' & Hrest).
  assert (Str.chars_from (String b "") s = String b t' :: rest) as -> by done.
  by destruct (Str.is_continuation b).
Qed.

Lemma chars_text s : text s = true → Forall (λ c, character c = true) (Str.chars s).
Proof.
  destruct s as [|b s]; [by constructor|]. simpl. intros Hb.
  unfold Str.chars. cbn [Str.chars_from]. apply negb_true_iff in Hb as Hb'.
  rewrite Hb'.
  destruct (chars_from_well_formed s b "" eq_refl) as (t' & rest & -> & Ht' & Hrest).
  apply Forall_cons. split; [|done]. simpl. by rewrite Hb, Ht'.
Qed.

Lemma cat_chars_from s : ∀ cur, Str.cat (Str.chars_from cur s) = cur ++ s.
Proof.
  induction s as [|b s IH]; intros cur.
  - destruct cur; [done|]. cbn [Str.chars_from Str.cat]. by rewrite !append_nil_r.
  - cbn [Str.chars_from]. destruct (Str.is_continuation b).
    + by rewrite IH, append_assoc.
    + destruct cur; [by rewrite IH|].
      cbn [Str.cat]. by rewrite IH.
Qed.

Lemma cat_chars s : Str.cat (Str.chars s) = s.
Proof. apply cat_chars_from. Qed.

Lemma cat_app cs ds : Str.cat (cs ++ ds)%list = Str.cat cs ++ Str.cat ds.
Proof.
  induction cs as [|c cs IH]; [done|]. cbn [Str.cat app].
  by rewrite IH, append_assoc.
Qed.

Lemma lstrip_chars_suffix cs : ∃ pre, cs = (pre ++ Str.lstrip_chars cs)%list.
Proof.
  induction cs as [|c cs [pre IH]]; [by exists []|]. simpl.
  destruct (Str.isspace c); [|by exists []].
  exists (c :: pre). rewrite IH at 1. done.
Qed.

Lemma rstrip_chars_prefix cs : ∃ post, cs = (Str.rstrip_chars cs ++ post)%list.
Proof.
  induction cs as [|c cs [post IH]]; [by exists []|]. simpl.
  destruct (Str.rstrip_chars cs) as [|r rs].
  - destruct (Str.isspace c); [by exists (c :: cs)|]. exists cs. done.
  - exists post. rewrite IH at 1. done.
Qed.

Lemma well_formed_suffix (pre cs : list string) :
  well_formed (pre ++ cs)%list → well_formed cs.
Proof.
  destruct pre as [|c pre]; [done|]. intros [_ H].
  apply characters_well_formed. by apply Forall_app in H as [_ ?].
Qed.

Lemma well_formed_prefix (cs post : list string) :
  well_formed (cs ++ post)%list → well_formed cs.
Proof.
  destruct cs as [|c cs]; [done|]. intros [? H].
  split; [done|]. by apply Forall_app in H as [? _].
Qed.

Lemma chars_strip s :
  Str.chars (Str.strip s) = Str.rstrip_chars (Str.lstrip_chars (Str.chars s)).
Proof.
  unfold Str.strip. apply chars_cat.
  destruct (rstrip_chars_prefix (Str.lstrip_chars (Str.chars s))) as [post Hpost].
  destruct (lstrip_chars_suffix (Str.chars s)) as [pre Hpre].
  apply (well_formed_prefix _ post). rewrite <- Hpost.
  apply (well_formed_suffix pre). rewrite <- Hpre. apply chars_well_formed.
Qed.

Lemma split_from_cons cur c cs :
  Str.split_from cur (c :: cs)
  = if Str.isspace c
    then match cur with
         | "" => Str.split_from "" cs
         | _ => cur :: Str.split_from "" cs
         end
    else Str.split_from (cur ++ c) cs.
Proof. reflexivity. Qed.

Lemma split_from_lstrip cs :
  Str.split_from "" (Str.lstrip_chars cs) = Str.split_from "" cs.
Proof.
  induction cs as [|c cs IH]; [done|]. simpl.
  destruct (Str.isspace c) eqn:Hc; [done|]. simpl. by rewrite Hc.
Qed.

Lemma split_from_rstrip cs : ∀ cur,
  Str.split_from cur (Str.rstrip_chars cs) = Str.split_from cur cs.
Proof.
  induction cs as [|c cs IH]; intros cur; [done|]. cbn [Str.rstrip_chars].
  destruct (Str.rstrip_chars cs) as [|r rs] eqn:Hr.
  - destruct (Str.isspace c) eqn:Hc.
    + cbn [Str.split_from]. rewrite Hc, <- IH. by destruct cur.
    + cbn [Str.split_from]. rewrite Hc, <- IH. done.
  - rewrite (split_from_cons cur c (r :: rs)), (split_from_cons cur c cs).
    by rewrite !IH.
Qed.

Lemma split_strip s : Str.split (Str.strip s) = Str.split s.
Proof.
  unfold Str.split. by rewrite chars_strip, split_from_rstrip, split_from_lstrip.
Qed.

Lemma split_from_nonempty cs : ∀ cur, Forall (λ t, t ≠ "") (Str.split_from cur cs).
Proof.
  induction cs as [|c cs IH]; intros cur; cbn [Str.split_from].
  - destruct cur; by repeat constructor.
  - destruct (Str.isspace c); [|apply IH].
    destruct cur; [apply IH|]. constructor; [done|apply IH].
Qed.

Lemma filter_all {A} (P : A → Prop) `{∀ x, Decision (P x)} (l : list A) :
  Forall P l → filter P l = l.
Proof.
  induction 1 as [|x l Hx Hl IH]; [done|].
  by rewrite filter_cons_True, IH.
Qed.

Lemma tokenize_split s : tokenize s = Str.split s.
Proof.
  unfold tokenize. rewrite split_strip. apply filter_all, split_from_nonempty.
Qed.

(** The word being read and the words that follow, as lists of
    characters. *)
Lemma split_from_words cs : ∀ (cur : list string),
  well_formed (cur ++ cs)%list →
  Forall (λ c, Str.isspace c = false) cur →
  Forall (λ t, spaceless t = true) (Str.split_from (Str.cat cur) cs)
  ∧ List.concat (Str.chars <$> Str.split_from (Str.cat cur) cs)
    = (cur ++ filter (λ c, Str.isspace c = false) cs)%list.
Proof.
  assert (∀ cur : list string, well_formed cur →
            Forall (λ c, Str.isspace c = false) cur →
            spaceless (Str.cat cur) = true) as Hword.
  { intros cur Hwf Hcur. unfold spaceless. rewrite (chars_cat _ Hwf).
    apply forallb_forall. intros c Hc%list_elem_of_In.
    rewrite Forall_forall in Hcur. by rewrite (Hcur _ Hc). }
  assert (∀ cur : list string, well_formed cur → cur ≠ [] → Str.cat cur ≠ "")
    as Hne.
  { intros [|c cur] Hwf Hcur; [done|]. destruct Hwf as [Hc _].
    destruct c; [done|]. cbn [Str.cat]. by rewrite append_cons. }
  induction cs as [|c cs IH]; intros cur Hwf Hcur.
  - rewrite app_nil_r in Hwf. cbn [Str.split_from filter list_filter].
    destruct cur as [|c0 cur0] eqn:Ecur; [by split; [constructor|]|].
    rewrite <- Ecur in *. assert (cur ≠ []) as Hcur' by (by rewrite Ecur).
    destruct (Str.cat cur) eqn:Ecat; [by apply Hne in Ecat|]. rewrite <- Ecat.
    split; [by repeat constructor; apply Hword|].
    cbn [fmap list_fmap List.concat]. by rewrite (chars_cat _ Hwf), !app_nil_r.
  - cbn [Str.split_from]. destruct (Str.isspace c) eqn:Hc.
    + rewrite filter_cons_False by (by rewrite Hc).
      assert (well_formed cs) as Hcs.
      { apply (well_formed_suffix (cur ++ [c])). by rewrite <- app_assoc. }
      destruct (IH [] Hcs) as [IH1 IH2]; [by constructor|]. cbn [Str.cat] in *.
      destruct cur as [|c0 cur0] eqn:Ecur; [done|].
      rewrite <- Ecur in *. assert (cur ≠ []) as Hcur' by (by rewrite Ecur).
      assert (well_formed cur) as Hwf' by (by apply well_formed_prefix in Hwf).
      destruct (Str.cat cur) eqn:Ecat; [by apply Hne in Ecat|]. rewrite <- Ecat.
      split; [constructor; [by apply Hword|done]|].
      cbn [fmap list_fmap List.concat]. rewrite (chars_cat _ Hwf').
      fold (Str.chars <$> Str.split_from "" cs). by rewrite IH2.
    + rewrite filter_cons_True by done.
      destruct (IH (cur ++ [c])%list) as [IH1 IH2].
      * by rewrite <- app_assoc.
      * apply Forall_app. split; [done|]. by repeat constructor.
      * rewrite cat_app in IH1, IH2. cbn [Str.cat] in IH1, IH2.
        rewrite append_nil_r in IH1, IH2. split; [done|].
        by rewrite IH2, <- app_assoc.
Qed.

(** The words of a line hold its characters that are not whitespace. *)
Lemma split_words s :
  Forall (λ t, spaceless t = true) (Str.split s)
  ∧ List.concat (Str.chars <$> Str.split s)
    = filter (λ c, Str.isspace c = false) (Str.chars s).
Proof.
  apply (split_from_words (Str.chars s) []); [apply chars_well_formed | constructor].
Qed.

Lemma well_formed_app cs ds :
  well_formed cs → Forall (λ c, character c = true) ds → well_formed (cs ++ ds)%list.
Proof.
  destruct cs as [|c cs]; [intros _; apply characters_well_formed|].
  intros [Hc Hcs] Hds. split; [done|]. by apply Forall_app.
Qed.

Lemma chars_app s t :
  text t = true → Str.chars (s ++ t) = (Str.chars s ++ Str.chars t)%list.
Proof.
  intros Ht. rewrite <- (cat_chars s) at 1. rewrite <- (cat_chars t) at 1.
  rewrite <- cat_app. apply chars_cat, well_formed_app.
  - apply chars_well_formed.
  - by apply chars_text.
Qed.

Lemma split_from_word (g : list string) : ∀ cur cs,
  Forall (λ c, Str.isspace c = false) g →
  Str.split_from cur (g ++ cs)%list = Str.split_from (cur ++ Str.cat g) cs.
Proof.
  induction g as [|c g IH]; intros cur cs Hg.
  - cbn [Str.cat app]. by rewrite append_nil_r.
  - apply Forall_cons in Hg as [Hc Hg].
    rewrite <- app_comm_cons, split_from_cons, Hc, (IH _ _ Hg).
    cbn [Str.cat]. by rewrite append_assoc.
Qed.

Lemma spaceless_chars t :
  spaceless t = true → Forall (λ c, Str.isspace c = false) (Str.chars t).
Proof.
  unfold spaceless. rewrite forallb_forall, Forall_forall.
  intros H c Hc%list_elem_of_In. by apply negb_true_iff, H.
Qed.

Lemma text_app s t : s ≠ "" → text (s ++ t) = text s.
Proof. by destruct s. Qed.

Lemma text_join w (ws : list string) :
  w ≠ "" → text w = true → text (Str.join " " (w :: ws)) = true.
Proof.
  intros Hw Ht. cbn [Str.join]. destruct ws; [done|]. by rewrite text_app.
Qed.

Lemma split_join (ws : list string) :
  Forall (λ w, w ≠ "" ∧ text w = true ∧ spaceless w = true) ws →
  Str.split (Str.join " " ws) = ws.
Proof.
  unfold Str.split. induction 1 as [|w ws (Hw & Ht & Hs) Hws IH]; [done|].
  assert (∀ cs, Str.split_from "" (Str.chars w ++ cs)%list = Str.split_from w cs)
    as Hword.
  { intros cs. rewrite split_from_word by by apply spaceless_chars.
    by rewrite cat_chars, append_nil. }
  destruct ws as [|w' ws].
  - cbn [Str.join]. rewrite <- (app_nil_r (Str.chars w)), Hword. by destruct w.
  - assert (text (Str.join " " (w' :: ws)) = true) as Htj.
    { apply Forall_cons in Hws as [(? & ? & _) _]. by apply text_join. }
    change (Str.join " " (w :: w' :: ws))
      with (w ++ " " ++ Str.join " " (w' :: ws)).
    rewrite chars_app by done. rewrite (chars_app " ") by done.
    change (Str.chars " ") with [" "]. rewrite Hword.
    rewrite <- app_comm_cons, split_from_cons.
    replace (Str.isspace " ") with true by (by vm_compute).
    cbn [app]. rewrite IH. by destruct w.
Qed.

Lemma lower_char_idem (b : ascii) : Str.lower_char (Str.lower_char b) = Str.lower_char b.
Proof. destruct b as [[] [] [] [] [] [] [] []]; reflexivity. Qed.

Lemma lower_char_small (b : ascii) :
  small_letter (Str.lower_char b) = false → Str.lower_char b = b.
Proof. destruct b as [[] [] [] [] [] [] [] []]; (reflexivity || discriminate). Qed.

Lemma lower_char_continuation (b : ascii) :
  Str.is_continuation (Str.lower_char b) = Str.is_continuation b.
Proof. destruct b as [[] [] [] [] [] [] [] []]; reflexivity. Qed.

Lemma lower_char_ascii (b : ascii) :
  (N_of_ascii (Str.lower_char b) <? 128)%N = (N_of_ascii b <? 128)%N.
Proof. destruct b as [[] [] [] [] [] [] [] []]; reflexivity. Qed.

Lemma lower_ascii_idem s : Str.lower_ascii (Str.lower_ascii s) = Str.lower_ascii s.
Proof. induction s as [|b s IH]; simpl; [done|]. by rewrite lower_char_idem, IH. Qed.

Lemma lower_ascii_app s t :
  Str.lower_ascii (s ++ t) = Str.lower_ascii s ++ Str.lower_ascii t.
Proof.
  induction s as [|b s IH]; [done|].
  rewrite append_cons. simpl. by rewrite IH, append_cons.
Qed.

Lemma lower_ascii_nil s : Str.lower_ascii s = "" ↔ s = "".
Proof. by destruct s. Qed.

Lemma ascii_only_lower s : Str.ascii_only (Str.lower_ascii s) = Str.ascii_only s.
Proof. induction s as [|b s IH]; simpl; [done|]. by rewrite lower_char_ascii, IH. Qed.

Lemma ascii_only_app s t :
  Str.ascii_only (s ++ t) = Str.ascii_only s && Str.ascii_only t.
Proof.
  induction s as [|b s IH]; [done|].
  rewrite append_cons. simpl. by rewrite IH, andb_assoc.
Qed.

(** On a string of ASCII characters [lower] is the lowering of the letters. *)
Lemma lower_ascii_only s : Str.ascii_only s = true → Str.lower s = Str.lower_ascii s.
Proof. unfold Str.lower. by intros ->. Qed.

Lemma lower_lower_ascii s :
  Str.ascii_only s = true → Str.lower (Str.lower_ascii s) = Str.lower s.
Proof.
  intros Hs. rewrite !lower_ascii_only, ?lower_ascii_idem; [done..|].
  by rewrite ascii_only_lower.
Qed.

Lemma lower_ascii_fixed s :
  no_small_letter (Str.lower_ascii s) = true → Str.lower_ascii s = s.
Proof.
  induction s as [|b s IH]; simpl; [done|].
  intros [Hb Hs]%andb_prop. apply negb_true_iff in Hb.
  by rewrite (lower_char_small _ Hb), IH.
Qed.

Lemma isspace_lower_ascii c : Str.isspace (Str.lower_ascii c) = Str.isspace c.
Proof.
  assert (Forall (λ x, no_small_letter x = true ∧ Str.lower_ascii x = x)
            (Str.utf8 <$> Str.WHITESPACE)) as Hws.
  { apply (bool_decide_unpack _). by vm_compute. }
  rewrite Forall_forall in Hws. unfold Str.isspace.
  apply bool_decide_ext. split; intros Hc.
  - destruct (Hws _ Hc) as [Hn _]. apply lower_ascii_fixed in Hn. by rewrite <- Hn.
  - destruct (Hws _ Hc) as [_ Hl]. by rewrite <- Hl in Hc |- *; rewrite ?lower_ascii_idem.
Qed.

Lemma chars_from_lower s : ∀ cur,
  Str.chars_from (Str.lower_ascii cur) (Str.lower_ascii s)
  = Str.lower_ascii <$> Str.chars_from cur s.
Proof.
  induction s as [|b s IH]; intros cur.
  - by destruct cur.
  - cbn [Str.lower_ascii Str.chars_from]. rewrite lower_char_continuation.
    destruct (Str.is_continuation b).
    + rewrite <- IH, lower_ascii_app. done.
    + pose proof (IH (String b "")) as IHb. cbn [Str.lower_ascii] in IHb.
      destruct cur; cbn [Str.lower_ascii]; by rewrite IHb.
Qed.

Lemma chars_lower s : Str.chars (Str.lower_ascii s) = Str.lower_ascii <$> Str.chars s.
Proof. apply (chars_from_lower s ""). Qed.

Lemma split_from_lower cs : ∀ cur,
  Str.split_from (Str.lower_ascii cur) (Str.lower_ascii <$> cs)
  = Str.lower_ascii <$> Str.split_from cur cs.
Proof.
  induction cs as [|c cs IH]; intros cur.
  - by destruct cur.
  - rewrite fmap_cons, !split_from_cons, isspace_lower_ascii.
    destruct (Str.isspace c).
    + pose proof (IH "") as IH0. cbn [Str.lower_ascii] in IH0.
      destruct cur; cbn [Str.lower_ascii]; by rewrite IH0.
    + by rewrite <- IH, lower_ascii_app.
Qed.

Lemma tokenize_lower s :
  tokenize (Str.lower_ascii s) = Str.lower_ascii <$> tokenize s.
Proof.
  rewrite !tokenize_split. unfold Str.split.
  by rewrite chars_lower, <- split_from_lower.
Qed.

Lemma join_lower (l : list string) :
  Str.join " " (Str.lower_ascii <$> l) = Str.lower_ascii (Str.join " " l).
Proof.
  induction l as [|x l IH]; [done|]. destruct l as [|y l]; [done|].
  change (Str.join " " (x :: y :: l)) with (x ++ " " ++ Str.join " " (y :: l)).
  rewrite !lower_ascii_app, <- IH. done.
Qed.

Lemma ascii_only_cat cs :
  Str.ascii_only (Str.cat cs) = forallb Str.ascii_only cs.
Proof.
  induction cs as [|c cs IH]; [done|]. cbn [Str.cat forallb].
  by rewrite ascii_only_app, IH.
Qed.

Lemma ascii_only_join (l : list string) :
  forallb Str.ascii_only l = true → Str.ascii_only (Str.join " " l) = true.
Proof.
  induction l as [|x l IH]; [done|]. cbn [forallb].
  intros [Hx Hl]%andb_prop. destruct l as [|y l]; [done|].
  change (Str.join " " (x :: y :: l)) with (x ++ " " ++ Str.join " " (y :: l)).
  by rewrite !ascii_only_app, Hx, IH.
Qed.

(** The tokens of a line of ASCII characters are ASCII. *)
Lemma ascii_only_tokenize s :
  Str.ascii_only s = true → forallb Str.ascii_only (tokenize s) = true.
Proof.
  intros Hs. destruct (split_words s) as [_ Hc]. rewrite <- tokenize_split in Hc.
  assert (forallb Str.ascii_only (Str.chars s) = true) as Hcs.
  { by rewrite <- ascii_only_cat, cat_chars. }
  apply forallb_forall. intros t Ht%list_elem_of_In.
  rewrite <- (cat_chars t), ascii_only_cat. apply forallb_forall.
  intros c Hct%list_elem_of_In.
  assert (c ∈ filter (λ c, Str.isspace c = false) (Str.chars s)) as Hin.
  { rewrite <- Hc. apply list_elem_of_In, in_concat. exists (Str.chars t).
    split; [|by apply list_elem_of_In].
    apply list_elem_of_In, list_elem_of_fmap. by exists t. }
  apply list_elem_of_filter in Hin as [_ Hin].
  rewrite forallb_forall in Hcs. by apply Hcs, list_elem_of_In.
Qed.

End tokens.

(** X1. The tokens of a line are the words that [split] finds: the [strip]
    and the filter of [handle_command] remove nothing more.  No token is
    empty, no token holds a whitespace character, and the characters of the
    tokens are, in order, the characters of the line that are not
    whitespace. *)
Theorem tokens_are_words (cmd : string) :
  tokenize cmd = Str.split cmd
  ∧ Forall (λ t, t ≠ "" ∧ spaceless t = true) (tokenize cmd)
  ∧ List.concat (Str.chars <$> tokenize cmd)
    = filter (λ c, Str.isspace c = false) (Str.chars cmd).
Proof.
  rewrite tokenize_split. split; [done|].
  destruct (split_words cmd) as [H1 H2].
  split; [|done]. apply Forall_and. split; [|done]. apply split_from_nonempty.
Qed.

(** X2. Joining words with single spaces, as [handle_take] and
    [handle_drop] do with their arguments, and tokenizing the result gives
    the words back; so the argument searched for is the rest of the line with
    each run of whitespace replaced by one space. *)
Theorem tokenize_join (words : list string) :
  Forall (λ w, w ≠ "" ∧ text w = true ∧ spaceless w = true) words →
  tokenize (Str.join " " words) = words.
Proof. intros Hws. by rewrite tokenize_split, split_join. Qed.

(** ** Letter case and synonyms *)

Lemma parse_direction_lower tok :
  Str.ascii_only tok = true →
  parse_direction (Str.lower_ascii tok) = parse_direction tok.
Proof. intros Ht. unfold parse_direction. by rewrite lower_lower_ascii. Qed.

Lemma handle_take_ext a args b args' :
  item_of (a :: args) = item_of (b :: args') →
  handle_take (a :: args) = handle_take (b :: args').
Proof. unfold handle_take, item_of. by intros ->. Qed.

Lemma handle_drop_ext a args b args' :
  item_of (a :: args) = item_of (b :: args') →
  handle_drop (a :: args) = handle_drop (b :: args').
Proof. unfold handle_drop, item_of. by intros ->. Qed.

Lemma item_of_lower args :
  forallb Str.ascii_only args = true →
  item_of (Str.lower_ascii <$> args) = item_of args.
Proof.
  intros Ha. unfold item_of.
  by rewrite join_lower, lower_lower_ascii by by apply ascii_only_join.
Qed.

Lemma lower_direction v :
  v ∈ ["n"; "s"; "e"; "w"; "north"; "south"; "east"; "west"] → Str.lower v = v.
Proof. intros Hv. in_literal Hv; by vm_compute. Qed.

Lemma handle_go_ext tok rest tok' rest' :
  parse_direction tok = parse_direction tok' →
  handle_go (tok :: rest) = handle_go (tok' :: rest').
Proof. unfold handle_go. by intros ->. Qed.

(** X3. On a line of ASCII characters the interpreter does not look at
    letter case: the line and the same line in lower case have the same
    effect, the same output and the same return value, in every state. *)
Theorem handle_command_lower (s : State) (cmd : string) :
  Str.ascii_only cmd = true →
  handle_command (Str.lower cmd) s = handle_command cmd s.
Proof.
  intros Hc. rewrite (lower_ascii_only _ Hc).
  rewrite !handle_command_eq, tokenize_lower.
  pose proof (ascii_only_tokenize _ Hc) as Ha.
  destruct (tokenize cmd) as [|verb args]; [done|].
  cbn [forallb] in Ha. apply andb_prop in Ha as [Hv Ha].
  rewrite fmap_cons, (lower_lower_ascii _ Hv).
  destruct (classify (Str.lower verb)); try done.
  - destruct args as [|a args]; [done|]. rewrite fmap_cons.
    cbn [forallb] in Ha. apply andb_prop in Ha as [Ha _].
    by rewrite (handle_go_ext _ _ a args (parse_direction_lower a Ha)).
  - destruct args as [|a args]; [done|].
    by rewrite <- (handle_take_ext _ _ _ _ (item_of_lower (a :: args) Ha)).
  - destruct args as [|a args]; [done|].
    by rewrite <- (handle_drop_ext _ _ _ _ (item_of_lower (a :: args) Ha)).
Qed.

(** X4. A bare direction is the Move command with that direction: a line
    whose verb is a direction does what [go] or [move] followed by a token
    for the same direction does (abbreviated or not), and what follows the
    direction on either line is ignored. *)
Theorem bare_direction_is_go
    (s : State) (cmd cmd' v g tok : string) (args rest : list string) :
  tokenize cmd = v :: args →
  Str.lower v ∈ ["n"; "s"; "e"; "w"; "north"; "south"; "east"; "west"] →
  tokenize cmd' = g :: tok :: rest →
  Str.lower g ∈ ["go"; "move"] →
  parse_direction tok = parse_direction v →
  handle_command cmd s = handle_command cmd' s.
Proof.
  intros Ht Hv Ht' Hg Htok. rewrite !handle_command_eq, Ht, Ht'.
  rewrite (go_or_direction _ Hv).
  replace (classify (Str.lower g)) with VGo
    by (symmetry; apply classify_go; in_literal Hg; auto).
  rewrite (handle_go_ext (Str.lower v) [] tok rest); [done|].
  unfold parse_direction in *. by rewrite (lower_direction _ Hv).
Qed.

(** X5. [parse_direction] normalises: each of the four direction names is
    mapped to itself and each one-letter abbreviation to its name; whatever
    is accepted is mapped to one of the four names, and is one of these eight
    tokens once lowered; two tokens that are equal once lowered get the same
    answer. *)
Theorem parse_direction_normal :
  (∀ d, d ∈ ["north"; "south"; "east"; "west"] → parse_direction d = Some d)
  ∧ (∀ a d, (a, d) ∈ [("n", "north"); ("s", "south"); ("e", "east"); ("w", "west")] →
            parse_direction a = Some d)
  ∧ (∀ tok d, parse_direction tok = Some d →
              d ∈ ["north"; "south"; "east"; "west"]
              ∧ (Str.lower tok = d
                 ∨ (Str.lower tok, d)
                   ∈ [("n", "north"); ("s", "south"); ("e", "east"); ("w", "west")]))
  ∧ (∀ tok tok', Str.lower tok = Str.lower tok' →
                 parse_direction tok = parse_direction tok').
Proof.
  split_and!.
  - intros d Hd. in_literal Hd; by vm_compute.
  - intros a d Had.
    repeat (apply elem_of_cons in Had as [Heq|Had]; [simplify_eq; by vm_compute|]).
    by apply elem_of_nil in Had.
  - intros tok d. unfold parse_direction, direction_names. simpl.
    repeat case_decide; intros; simplify_eq;
      match goal with Heq : Str.lower tok = _ |- _ => rewrite Heq end;
      (split; [set_solver|]); first [by left | right; set_solver].
  - intros tok tok' Heq. unfold parse_direction. by rewrite Heq.
Qed.

(** ** What each command changes *)

Lemma WORLD_names_are_keys : map_Forall (λ k isl, name isl = k) WORLD.
Proof. apply (bool_decide_unpack _). vm_compute. reflexivity. Qed.

Lemma game_state_name_key s k isl :
  game_state s → world s !! k = Some isl → name isl = k.
Proof.
  intros [Hl _] Hk.
  destruct (same_layout_lookup _ _ _ _ Hl Hk) as (isl' & Hk' & Hisl').
  replace (name isl) with (name isl') by (unfold layout in Hisl'; congruence).
  apply (WORLD_names_are_keys _ _ Hk').
Qed.

Lemma show_location_banner s isl :
  here s = Some isl →
  ∃ more, show_location s
          = mkResult (Ret tt) s
              (Print (Str.nl ++ rule) :: Print (name isl) :: Print rule
               :: PrintWrapped (description isl) :: more).
Proof.
  unfold here, show_location. intros Hh. proc_simpl. rewrite Hh. simpl.
  destruct (items isl), (exits isl); simpl; by eexists.
Qed.

(** X6. In a state of the game, a move along an exit of the player's island
    puts the player on the island the exit leads to, leaves every item list
    and the inventory as they were, and shows that island: the banner reads
    the name of the new location. *)
Theorem move_arrives
    (s : State) (tok d target : string) (rest : list string) (isl : Island) :
  game_state s →
  parse_direction tok = Some d →
  here s = Some isl →
  dict_get (exits isl) d = Some target →
  let r := handle_go (tok :: rest) s in
  outcome r = Ret tt
  ∧ final r = mkState (world s) (mkPlayer target (inventory (player s)))
  ∧ is_Some (world s !! target)
  ∧ ∃ more, printed r
            = Print (Str.nl ++ rule) :: Print target :: Print rule :: more.
Proof.
  intros Hg Hp Hh Hd r. unfold r. erewrite handle_go_moved by done.
  destruct (game_state_exit s isl d target Hg Hh Hd) as [isl' Ht].
  destruct (show_location_banner
              (mkState (world s) (mkPlayer target (inventory (player s)))) isl' Ht)
    as (more & ->).
  cbn [outcome final printed]. split_and!; [done..|eauto|].
  rewrite (game_state_name_key s target isl' Hg Ht). eauto.
Qed.

(** X7. A Drop with a non-empty argument for which the inventory is
    [pre ++ found :: post], where no item of [pre] contains the argument as a
    case-insensitive substring and [found] does, drops [found]: the inventory
    keeps [pre ++ post], the player's island gets [found] at the end of its
    list, nothing else changes, and the one line printed reports the drop
    (a Drop never announces victory). *)
Theorem drop_first_match
    (s : State) (args : list string) (isl : Island)
    (pre post : list string) (found : string) :
  args ≠ [] →
  here s = Some isl →
  inventory (player s) = pre ++ found :: post →
  (∀ z, z ∈ pre → ¬ contains_ci z (Str.join " " args)) →
  contains_ci found (Str.join " " args) →
  let r := handle_drop args s in
  outcome r = Ret tt
  ∧ printed r = [Print ("You drop the " ++ found ++ ".")]
  ∧ world (final r) !! location (player s)
    = Some (with_items (items isl ++ [found]) isl)
  ∧ (∀ k, k ≠ location (player s) → world (final r) !! k = world s !! k)
  ∧ player (final r) = mkPlayer (location (player s)) (pre ++ post).
Proof.
  intros Hne Hh Hi Hpre Hf r. unfold r.
  erewrite handle_drop_found; [|done..| |by apply is_match_contains].
  - cbn [outcome final printed world player]. split_and!; try done.
    + unfold here in Hh. by rewrite lookup_alter_eq, Hh.
    + intros k Hk. by rewrite lookup_alter_ne.
  - apply Forall_forall. intros z Hz Hm. by apply (Hpre z Hz), is_match_contains.
Qed.

Lemma leb_total_Is_true : Total (λ a b : string, Is_true (String.leb a b)).
Proof.
  intros a b. destruct (String.leb_total a b) as [H|H]; rewrite H; [by left|by right].
Qed.

Lemma missing_empty_iff (p : Player) :
  TREASURE_ITEMS ∖ list_to_set (inventory p) = (∅ : gset string)
  ↔ has_all_treasure p = true.
Proof.
  unfold has_all_treasure. rewrite bool_decide_eq_true.
  generalize TREASURE_ITEMS (list_to_set (inventory p) : gset string).
  intros T X. split.
  - intros Hm t Ht. destruct (decide (t ∈ X)) as [|Hn]; [done|].
    assert (t ∈ T ∖ X) as Hd by (by apply elem_of_difference).
    rewrite Hm in Hd. by apply not_elem_of_empty in Hd.
  - intros Hs. apply set_eq. intros t.
    rewrite elem_of_difference. split; [|by intros ?%not_elem_of_empty].
    intros [Ht Hn]. destruct Hn. by apply Hs.
Qed.

Lemma handle_inventory_nonempty s :
  inventory (player s) ≠ [] →
  handle_inventory s
  = mkResult (Ret tt) s
      [Print ("You carry: " ++ Str.join ", " (inventory (player s)));
       Print (if decide (TREASURE_ITEMS ∖ list_to_set (inventory (player s))
                         = (∅ : gset string))
              then "You've collected the full trove! Return to Pirate Cove to claim victory."
              else "Still missing: "
                   ++ Str.join ", "
                        (Str.sorted
                           (elements (TREASURE_ITEMS ∖ list_to_set (inventory (player s))
                                      : gset string))))].
Proof.
  intros Hne. unfold handle_inventory. proc_unfold. cbn [outcome final printed app].
  destruct (inventory (player s)) as [|i l]; [done|].
  by case_decide.
Qed.

(** X8. [handle_inventory] changes nothing and reports the bag: an empty
    bag is said to be empty; otherwise the carried items are listed in order,
    followed either by the full-trove line, exactly when [has_all_treasure]
    holds (wherever the player is), or by the treasure names that are not
    carried, each once, in sorted order. *)
Theorem inventory_report (s : State) :
  let r := handle_inventory s in
  let inv := inventory (player s) in
  final r = s
  ∧ outcome r = Ret tt
  ∧ (inv = [] → printed r = [Print "Your bag is empty."])
  ∧ (inv ≠ [] →
     ∃ line, printed r = [Print ("You carry: " ++ Str.join ", " inv); Print line]
       ∧ (has_all_treasure (player s) = true →
          line = "You've collected the full trove! Return to Pirate Cove to claim victory.")
       ∧ (has_all_treasure (player s) = false →
          ∃ missing,
            line = ("Still missing: " ++ Str.join ", " missing)%string
            ∧ Sorted (λ a b, Is_true (String.leb a b)) missing
            ∧ NoDup missing
            ∧ ∀ t, t ∈ missing
                   ↔ t ∈ ["cutlass"; "compass"; "doubloon"; "rum"; "spyglass"; "map piece"]
                     ∧ t ∉ inv)).
Proof.
  intros r inv. unfold r, inv.
  destruct (decide (inventory (player s) = [])) as [He|Hne].
  { unfold handle_inventory. proc_unfold. cbn [outcome final printed app].
    rewrite He. by split_and!. }
  rewrite handle_inventory_nonempty by done. cbn [outcome final printed].
  case_decide as Hm; (split_and!; [done|done|by intros ?|]); intros _;
    eexists; (split; [reflexivity|]).
  - apply missing_empty_iff in Hm. split; [done|]. congruence.
  - split; [intros Ha; by apply missing_empty_iff in Ha|]. intros _.
    eexists. split; [reflexivity|]. split_and!.
    + unfold Str.sorted. apply Sorted_merge_sort. apply leb_total_Is_true.
    + unfold Str.sorted. rewrite merge_sort_Permutation. apply NoDup_elements.
    + intros t. unfold Str.sorted. rewrite merge_sort_Permutation, elem_of_elements.
      unfold TREASURE_ITEMS, TREASURE_NAMES.
      rewrite elem_of_difference, !elem_of_list_to_set. done.
Qed.

(** X9. Only Move, Take and Drop commands can change the state: when the
    state after [handle_command] differs from the state before, the verb of
    the line is [go] or [move], a direction, [take], [get], [pick] or [drop].
    Looking, listing the bag, asking for help, quitting and lines that are
    not understood change nothing. *)
Theorem only_actions_change (s : State) (cmd : string) :
  final (handle_command cmd s) ≠ s →
  ∃ verb args,
    tokenize cmd = verb :: args
    ∧ Str.lower verb ∈ ["go"; "move"; "n"; "s"; "e"; "w"; "north"; "south"; "east";
                        "west"; "take"; "get"; "pick"; "drop"].
Proof.
  rewrite final_command. destruct (tokenize cmd) as [|verb args]; [done|].
  intros Hs. exists verb, args. split; [done|].
  destruct (classify (Str.lower verb)) eqn:Hc; try done.
  - apply classify_go in Hc as [-> | ->]; set_solver.
  - assert (Str.lower verb ∈ ["go"; "move"; "n"; "s"; "e"; "w";
                              "north"; "south"; "east"; "west"]) as Hv
      by (apply classify_move; auto).
    set_solver.
  - apply classify_take in Hc. set_solver.
  - apply classify_drop in Hc as ->. set_solver.
Qed.

Lemma handle_go_final args s :
  final (handle_go args s) = s
  ∨ ∃ target,
      final (handle_go args s) = mkState (world s) (mkPlayer target (inventory (player s))).
Proof.
  destruct args as [|tok rest]; [by left|].
  destruct (parse_direction tok) as [d|] eqn:Hp;
    [|left; by rewrite handle_go_unparsed].
  destruct (here s) as [isl|] eqn:Hh; [|left; by erewrite handle_go_lost].
  destruct (dict_get (exits isl) d) as [target|] eqn:Hd;
    [|left; by erewrite handle_go_blocked].
  right. exists target. by erewrite handle_go_moved, show_location_final.
Qed.

Lemma handle_take_location args s :
  location (player (final (handle_take args s))) = location (player s).
Proof.
  destruct args as [|a args'] eqn:Ha; [done|]. rewrite <- Ha.
  assert (args ≠ []) as Hne by (by rewrite Ha). clear Ha.
  destruct (here s) as [isl|] eqn:Hh; [|by rewrite handle_take_lost].
  destruct (filter (is_match (item_of args)) (items isl)) as [|found rest] eqn:Hf;
    [by erewrite handle_take_none|].
  apply filter_head_split in Hf as (pre & post & Hi & Hpre & Hm).
  by erewrite handle_take_found.
Qed.

Lemma handle_drop_location args s :
  location (player (final (handle_drop args s))) = location (player s).
Proof.
  destruct args as [|a args'] eqn:Ha; [done|]. rewrite <- Ha.
  assert (args ≠ []) as Hne by (by rewrite Ha). clear Ha.
  destruct (filter (is_match (item_of args)) (inventory (player s)))
    as [|found rest] eqn:Hf; [by erewrite handle_drop_none|].
  apply filter_head_split in Hf as (pre & post & Hi & Hpre & Hm).
  destruct (here s) as [isl|] eqn:Hh.
  - by erewrite handle_drop_found.
  - by erewrite handle_drop_lost.
Qed.

(** X10. A Move command never touches an item: the item lists of all
    islands and the inventory are after it what they were before.  No other
    command moves the player: the location is after it what it was before.
    Both hold in every state. *)
Theorem command_frames (s : State) (cmd : string) :
  let s' := final (handle_command cmd s) in
  (is_move cmd →
   world s' = world s ∧ inventory (player s') = inventory (player s))
  ∧ (¬ is_move cmd → location (player s') = location (player s)).
Proof.
  intros s'. unfold s'. rewrite final_command.
  destruct (tokenize cmd) as [|verb args] eqn:Ht.
  { split; [|done]. intros (v & a & Hv & _). congruence. }
  assert (is_move cmd ↔ classify (Str.lower verb) = VGo
                         ∨ classify (Str.lower verb) = VDirection) as Hmove.
  { rewrite <- classify_move. split; [|by exists verb, args].
    intros (v & a & Hv & Hl). rewrite Ht in Hv. by simplify_eq. }
  rewrite Hmove.
  destruct (classify (Str.lower verb)) eqn:Hc;
    (split; [intros [?|?]; try done | intros Hn; try done]).
  - by destruct (handle_go_final args s) as [->|[t ->]].
  - destruct Hn. by left.
  - by destruct (handle_go_final [Str.lower verb] s) as [->|[t ->]].
  - destruct Hn. by right.
  - apply handle_take_location.
  - apply handle_drop_location.
Qed.

(** X11. The states of the game are closed under commands, and no command
    creates or destroys an item: after any command on a state of the game
    the world still has the static names, descriptions and exits, the player
    stands on one of its islands, and the items held in all containers are
    the same as before, counted with repetitions. *)
Theorem commands_keep_the_game (s : State) (cmd : string) :
  game_state s →
  game_state (final (handle_command cmd s))
  ∧ holdings (final (handle_command cmd s)) ≡ₚ holdings s.
Proof.
  intros Hg.
  assert (step s (final (handle_command cmd s))) as Hstep
    by apply handle_command_step, Hg.
  split; [by eapply game_state_step | by apply holdings_step].
Qed.

(** ** Exceptions *)

Lemma outcome_then_raise {A} (m : Proc unit) (k : Proc A) s e :
  (∀ s1, ∃ a, outcome (k s1) = Ret a) →
  outcome ((m;; k) s) = Raise e → outcome (m s) = Raise e.
Proof.
  intros Hk. unfold mbind, Proc_bind, proc_bind. cbv zeta.
  destruct (outcome (m s)) as [[]|e']; simpl.
  - destruct (Hk (final (m s))) as [a ->]. intros ?. simplify_eq.
  - intros ?. by simplify_eq.
Qed.

Lemma show_location_raise s e :
  outcome (show_location s) = Raise e →
  e = KeyError (location (player s)) ∧ here s = None.
Proof.
  destruct (here s) as [isl|] eqn:Hh.
  - by destruct (show_location_spec s isl Hh) as (out & -> & _).
  - unfold here in Hh. unfold show_location. proc_simpl. rewrite Hh. simpl.
    intros. by simplify_eq.
Qed.

(** X12. The one exception that [handle_command] can raise is the
    [KeyError] of a name that is no key of the world: the player's location,
    or the target of an exit of the player's island just moved to.  In
    particular [list.remove] never raises [ValueError], in any state. *)
Theorem only_key_errors (s : State) (cmd : string) (e : Exn) :
  outcome (handle_command cmd s) = Raise e →
  ∃ k, e = KeyError k
       ∧ world s !! k = None
       ∧ (k = location (player s)
          ∨ ∃ isl d, here s = Some isl ∧ dict_get (exits isl) d = Some k).
Proof.
  assert (∀ args, outcome (handle_go args s) = Raise e →
            ∃ k, e = KeyError k ∧ world s !! k = None
                 ∧ (k = location (player s)
                    ∨ ∃ isl d, here s = Some isl ∧ dict_get (exits isl) d = Some k))
    as Hgo.
  { intros [|tok rest]; [done|].
    destruct (parse_direction tok) as [d|] eqn:Hp; [|by rewrite handle_go_unparsed].
    destruct (here s) as [isl|] eqn:Hh.
    - destruct (dict_get (exits isl) d) as [target|] eqn:Hd;
        [|by erewrite handle_go_blocked].
      erewrite handle_go_moved by done. intros [-> Ht]%show_location_raise.
      exists target. split_and!; [done..|]. right. eauto.
    - erewrite handle_go_lost by done. cbn [outcome]. intros; simplify_eq.
      exists (location (player s)). by split_and!; [..|left]. }
  assert (∀ s1, ∃ a, outcome ((check_victory_on_move;; mret true) s1) = Ret a)
    as Hcheck.
  { intros s1. exists true.
    by rewrite (then_ret _ _ _ _ _ (check_victory_on_move_spec s1)). }
  assert (∀ s1 : State, ∃ a, outcome ((mret true : Proc bool) s1) = Ret a) as Hret
    by (intros; by exists true).
  rewrite handle_command_eq. destruct (tokenize cmd) as [|verb args]; [done|].
  unfold handle_look, handle_help.
  destruct (classify (Str.lower verb)); try done.
  - intros Ho%(outcome_then_raise _ _ _ _ Hcheck). by apply Hgo in Ho.
  - intros Ho%(outcome_then_raise _ _ _ _ Hcheck). by apply Hgo in Ho.
  - intros [-> Hh]%(outcome_then_raise _ _ _ _ Hret)%show_location_raise.
    exists (location (player s)). by split_and!; [..|left].
  - intros Ho%(outcome_then_raise _ _ _ _ Hret).
    destruct args as [|a args'] eqn:Ha; [done|]. rewrite <- Ha in Ho.
    assert (args ≠ []) as Hne by (by rewrite Ha). clear Ha.
    destruct (here s) as [isl|] eqn:Hh.
    + destruct (filter (is_match (item_of args)) (items isl)) as [|found r] eqn:Hf;
        [by erewrite handle_take_none in Ho|].
      apply filter_head_split in Hf as (pre & post & Hi & Hpre & Hm).
      by erewrite handle_take_found in Ho.
    + rewrite handle_take_lost in Ho by done. cbn [outcome] in Ho. simplify_eq.
      exists (location (player s)). by split_and!; [..|left].
  - intros Ho%(outcome_then_raise _ _ _ _ Hret).
    destruct args as [|a args'] eqn:Ha; [done|]. rewrite <- Ha in Ho.
    assert (args ≠ []) as Hne by (by rewrite Ha). clear Ha.
    destruct (filter (is_match (item_of args)) (inventory (player s)))
      as [|found r] eqn:Hf; [by erewrite handle_drop_none in Ho|].
    apply filter_head_split in Hf as (pre & post & Hi & Hpre & Hm).
    destruct (here s) as [isl|] eqn:Hh.
    + by erewrite handle_drop_found in Ho.
    + erewrite handle_drop_lost in Ho by done. cbn [outcome] in Ho. simplify_eq.
      exists (location (player s)). by split_and!; [..|left].
  - intros Ho%(outcome_then_raise _ _ _ _ Hret).
    by destruct (handle_inventory_spec s) as (out & Heq & _); rewrite Heq in Ho.
Qed.

(** ** Sessions *)

Lemma result_eta {A} (r : Result A) : r = mkResult (outcome r) (final r) (printed r).
Proof. by destruct r. Qed.

Lemma game_loop_continue cmd lines s :
  outcome (handle_command cmd s) = Ret true →
  game_loop (cmd :: lines) s
  = mkResult (outcome (game_loop lines (final (handle_command cmd s))))
      (final (game_loop lines (final (handle_command cmd s))))
      (printed (handle_command cmd s)
       ++ printed (game_loop lines (final (handle_command cmd s)))).
Proof.
  intros Ho.
  change (game_loop (cmd :: lines))
    with (handle_command cmd ≫= λ continue : bool,
            if continue then game_loop lines else mret tt).
  pose proof (result_eta (handle_command cmd s)) as Hr. rewrite Ho in Hr.
  by rewrite (bind_run _ _ _ _ _ _ Hr).
Qed.

Lemma game_loop_stop cmd lines s :
  outcome (handle_command cmd s) = Ret false →
  game_loop (cmd :: lines) s
  = mkResult (Ret tt) (final (handle_command cmd s)) (printed (handle_command cmd s)).
Proof.
  intros Ho.
  change (game_loop (cmd :: lines))
    with (handle_command cmd ≫= λ continue : bool,
            if continue then game_loop lines else mret tt).
  pose proof (result_eta (handle_command cmd s)) as Hr. rewrite Ho in Hr.
  rewrite (bind_run _ _ _ _ _ _ Hr). cbn. by rewrite app_nil_r.
Qed.

Lemma handle_command_quit s q :
  quits q → handle_command q s = mkResult (Ret false) s [Print "Fair winds, captain."].
Proof.
  intros Hq. pose proof Hq as (verb & args & Ht & _).
  apply (quits_classify _ _ _ Ht) in Hq.
  by rewrite handle_command_eq, Ht, Hq.
Qed.

Lemma game_state_command s cmd : game_state s → game_state (final (handle_command cmd s)).
Proof. intros Hg. eapply game_state_step; [done|]. apply handle_command_step, Hg. Qed.

(** X13. A session stops at the first line that quits: the loop of
    [start_game] runs the commands before it in order, prints what they
    print and then the farewell of [quit], ends in the state those commands
    reach, and leaves the lines after the quit unread. *)
Theorem game_loop_until_quit (s : State) (pre post : list string) (q : string) :
  game_state s →
  Forall (λ c, ¬ quits c) pre →
  quits q →
  game_loop (pre ++ q :: post) s
  = mkResult (Ret tt) (after pre s)
      (transcript pre s ++ [Print "Fair winds, captain."])
  ∧ unread (pre ++ q :: post) s = post.
Proof.
  intros Hg Hpre Hq. revert s Hg.
  induction Hpre as [|cmd pre Hcmd _ IH]; intros s Hg.
  - change ([] ++ q :: post) with (q :: post).
    rewrite game_loop_stop by (by rewrite handle_command_quit).
    cbn [unread]. by rewrite !handle_command_quit.
  - pose proof (handle_command_continues s cmd Hg Hcmd) as Ho.
    destruct (IH _ (game_state_command s cmd Hg)) as [IHl IHu].
    change ((cmd :: pre) ++ q :: post) with (cmd :: (pre ++ q :: post)).
    rewrite game_loop_continue by done. rewrite IHl.
    cbn [unread outcome final printed after transcript foldl]. rewrite Ho.
    by rewrite (assoc app).
Qed.

(** X14. When no line quits, the session runs every line in order and ends
    gracefully at the end of the input: the [EOFError] of [input] is caught,
    the farewell is printed after a newline, and no exception escapes. *)
Theorem game_loop_to_end_of_input (s : State) (lines : list string) :
  game_state s →
  Forall (λ c, ¬ quits c) lines →
  game_loop lines s
  = mkResult (Ret tt) (after lines s)
      (transcript lines s ++ [Print (Str.nl ++ "Fair winds, captain.")])
  ∧ unread lines s = [].
Proof.
  intros Hg Hl. revert s Hg.
  induction Hl as [|cmd lines Hcmd _ IH]; intros s Hg; [done|].
  pose proof (handle_command_continues s cmd Hg Hcmd) as Ho.
  destruct (IH _ (game_state_command s cmd Hg)) as [IHl IHu].
  rewrite game_loop_continue by done. rewrite IHl.
  cbn [unread outcome final printed after transcript foldl]. rewrite Ho.
  by rewrite (assoc app).
Qed.

Lemma game_loop_invariant lines s :
  game_state s →
  game_state (final (game_loop lines s))
  ∧ holdings (final (game_loop lines s)) ≡ₚ holdings s.
Proof.
  revert s. induction lines as [|cmd lines IH]; intros s Hg; [done|].
  assert (step s (final (handle_command cmd s))) as Hstep
    by apply handle_command_step, Hg.
  pose proof (game_state_step _ _ Hg Hstep) as Hg'.
  destruct (handle_command_returns s cmd Hg) as [[] Hb].
  - rewrite game_loop_continue by done. cbn [final].
    destruct (IH _ Hg') as [? Hp]. split; [done|].
    by rewrite Hp, (holdings_step _ _ Hstep).
  - rewrite game_loop_stop by done. cbn [final].
    split; [done|]. by apply holdings_step.
Qed.

Lemma game_world_start w : game_world w → game_state (mkState w new_player).
Proof.
  intros Hw. split; [done|]. unfold here. cbn [world player location new_player].
  assert (is_Some ((layout <$> w) !! START_ISLAND)) as Hs.
  { rewrite Hw. eexists. by vm_compute. }
  by rewrite lookup_fmap, fmap_is_Some in Hs.
Qed.

Lemma start_game_spec lines w :
  game_world w →
  outcome (start_game lines w) = Ret tt
  ∧ game_state (final (start_game lines w))
  ∧ holdings (final (start_game lines w)) ≡ₚ stock w.
Proof.
  intros Hw. pose proof (game_world_start w Hw) as Hg. unfold start_game.
  destruct (show_location_quiet _ Hg) as (out & Hout & _).
  rewrite (bind_run _ _ _ _ _ _ Hout). cbn [outcome final].
  destruct (game_loop_invariant lines _ Hg) as [Hg' Hp].
  split_and!; [by apply game_loop_returns|done|by rewrite Hp].
Qed.

Lemma unread_suffix lines s : ∃ consumed, lines = consumed ++ unread lines s.
Proof.
  revert s. induction lines as [|cmd lines IH]; intros s; [by exists []|].
  cbn [unread]. destruct (outcome (handle_command cmd s)) as [[]|e].
  - destruct (IH (final (handle_command cmd s))) as [consumed Hc].
    exists (cmd :: consumed). by rewrite Hc at 1.
  - by exists [cmd].
  - by exists [cmd].
Qed.

Lemma unread_length lines s : (length (unread lines s) ≤ length lines)%nat.
Proof.
  destruct (unread_suffix lines s) as [consumed Hc].
  rewrite Hc at 2. rewrite length_app. lia.
Qed.

Lemma run_fuel_enough fuel fuel' lines w :
  (length lines < fuel)%nat → (length lines < fuel')%nat →
  run_fuel fuel lines w = run_fuel fuel' lines w.
Proof.
  revert fuel' lines w. induction fuel as [|fuel IH]; intros fuel' lines w Hf Hf';
    [lia|].
  destruct fuel' as [|fuel']; [lia|]. cbn [run_fuel].
  destruct lines as [|line rest]; [done|]. cbn [length] in Hf, Hf'.
  repeat case_decide; try done.
  - destruct (outcome (start_game rest w)); [|done].
    pose proof (unread_length rest (mkState w new_player)).
    f_equal. apply IH; lia.
  - destruct rest as [|enter rest]; [done|]. cbn [length] in Hf, Hf'.
    f_equal. apply IH; lia.
  - f_equal. apply IH; lia.
Qed.

Lemma last_shown_first out r x :
  last (shown r) = Some x → last (shown (shown_first out r)) = Some x.
Proof. intros Hl. cbn [shown shown_first]. by rewrite last_app, Hl. Qed.

Lemma run_fuel_spec fuel lines w :
  game_world w →
  (length lines < fuel)%nat →
  let r := run_fuel fuel lines w in
  (ending r = Returned ∨ ending r = EndOfInput)
  ∧ game_world (world_left r)
  ∧ stock (world_left r) ⊆+ stock w
  ∧ (ending r = Returned →
     (∃ l, l ∈ lines ∧ Str.strip l = "3")
     ∧ last (shown r) = Some (Print "Goodbye!")).
Proof.
  revert lines w. induction fuel as [|fuel IH]; intros lines w Hw Hf; [lia|].
  cbn [run_fuel]. destruct lines as [|line rest]; [by split_and!; [right|..]|].
  cbn [length] in Hf.
  destruct (decide (Str.strip line = "1")) as [H1|H1].
  - destruct (start_game_spec rest w Hw) as (Ho & [Hw' _] & Hp). rewrite Ho.
    pose proof (unread_length rest (mkState w new_player)) as Hlen.
    destruct (IH (unread rest (mkState w new_player)) _ Hw' ltac:(lia))
      as (He & Hwl & Hst & Hret).
    cbn [ending world_left shown_first]. split_and!; [done..| |].
    + etrans; [exact Hst|]. rewrite <- Hp. apply submseteq_inserts_l. done.
    + intros Hr. destruct (Hret Hr) as [(l & Hl & H3) Hlast]. split.
      * exists l. split; [|done]. right.
        destruct (unread_suffix rest (mkState w new_player)) as [c Hc].
        rewrite Hc. apply elem_of_app. by right.
      * by apply last_shown_first.
  - destruct (decide (Str.strip line = "2")) as [H2|H2].
    + destruct rest as [|enter rest]; [by split_and!; [right|..]|].
      cbn [length] in Hf.
      destruct (IH rest w Hw ltac:(lia)) as (He & Hwl & Hst & Hret).
      cbn [ending world_left shown_first]. split_and!; [done..|].
      intros Hr. destruct (Hret Hr) as [(l & Hl & H3) Hlast]. split.
      * exists l. split; [|done]. by do 2 right.
      * by apply last_shown_first.
    + destruct (decide (Str.strip line = "3")) as [H3|H3].
      * cbn [ending world_left shown]. split_and!; [by left|done|done|].
        intros _. split; [exists line; split; [left|done]|].
        by rewrite last_snoc.
      * destruct (IH rest w Hw ltac:(lia)) as (He & Hwl & Hst & Hret).
        cbn [ending world_left shown_first]. split_and!; [done..|].
        intros Hr. destruct (Hret Hr) as [(l & Hl & Hl3) Hlast]. split.
        -- exists l. split; [|done]. by right.
        -- by apply last_shown_first.
Qed.

(** X15. On a world of the game, [run] ends in one of two ways on any
    input: it returns, or the [EOFError] of [input] at the end of the input
    escapes it.  No other exception is raised, the world it leaves is still a
    world of the game whose items all come from the world it started on, and
    the bound on the recursion of the model is never reached. *)
Theorem run_ends (w : gmap string Island) (lines : list string) :
  game_world w →
  let r := run lines w in
  (ending r = Returned ∨ ending r = EndOfInput)
  ∧ game_world (world_left r)
  ∧ stock (world_left r) ⊆+ stock w
  ∧ ∀ fuel, (length lines < fuel)%nat → run_fuel fuel lines w = r.
Proof.
  intros Hw r. unfold r, run.
  destruct (run_fuel_spec (S (length lines)) lines w Hw ltac:(lia))
    as (He & Hwl & Hst & _).
  split_and!; [done..|]. intros fuel Hf. apply run_fuel_enough; lia.
Qed.

(** X16. [run] returns only through the menu's third choice: when it
    returns, some line of the input stripped to [3] and the last line printed
    is the goodbye.  An input with no such line ends in [EOFError], also when
    the session it played ended gracefully on the end of the input. *)
Theorem run_returns_by_choice_3 (w : gmap string Island) (lines : list string) :
  game_world w →
  let r := run lines w in
  (ending r = Returned →
   (∃ l, l ∈ lines ∧ Str.strip l = "3")
   ∧ last (shown r) = Some (Print "Goodbye!"))
  ∧ (Forall (λ l, Str.strip l ≠ "3") lines → ending r = EndOfInput).
Proof.
  intros Hw r. unfold r, run.
  destruct (run_fuel_spec (S (length lines)) lines w Hw ltac:(lia))
    as (He & _ & _ & Hret).
  split; [done|]. intros Hno. destruct He as [He|He]; [|done].
  destruct (Hret He) as [(l & Hl & H3) _].
  rewrite Forall_forall in Hno. by destruct (Hno l Hl).
Qed.

(** X17. A session started on a world of the game ends without an
    exception, and at its end the items carried and the items lying on the
    islands are together the items that lay on the islands when it started.
    The player of the next session is new, and the world it starts on is
    the world this session leaves: when no item name lay twice on the islands
    at the start, what is carried at the end lies on no island of that
    world. *)
Theorem session_keeps_items (w : gmap string Island) (lines : list string) :
  game_world w →
  let g := start_game lines w in
  outcome g = Ret tt
  ∧ game_world (world (final g))
  ∧ inventory (player (final g)) ++ stock (world (final g)) ≡ₚ stock w
  ∧ (NoDup (stock w) →
     ∀ x, x ∈ inventory (player (final g)) → x ∉ stock (world (final g))).
Proof.
  intros Hw g. unfold g.
  destruct (start_game_spec lines w Hw) as (Ho & [Hw' _] & Hp).
  split_and!; [done..|]. intros Hnd x Hx.
  rewrite <- Hp in Hnd. by apply NoDup_app in Hnd as (_ & Hsep & _); apply Hsep.
Qed.

(** ** Sailing *)

Lemma WORLD_reversible : exits_reversible WORLD.
Proof. unfold exits_reversible. apply (bool_decide_unpack _). vm_compute. reflexivity. Qed.

Lemma WORLD_courses : courses_arrive.
Proof. unfold courses_arrive. apply (bool_decide_unpack _). vm_compute. reflexivity. Qed.

Lemma game_state_static s k isl :
  game_state s → world s !! k = Some isl →
  ∃ isl0, WORLD !! k = Some isl0 ∧ exits isl0 = exits isl.
Proof.
  intros [Hl _] Hk.
  destruct (same_layout_lookup _ _ _ _ Hl Hk) as (isl0 & Hk0 & Hisl).
  exists isl0. split; [done|]. unfold layout in Hisl. congruence.
Qed.

Lemma static_game_state s k isl0 :
  game_state s → WORLD !! k = Some isl0 →
  ∃ isl, world s !! k = Some isl ∧ exits isl = exits isl0.
Proof.
  intros [Hl _] Hk.
  destruct (same_layout_lookup _ _ _ _ (eq_sym Hl) Hk) as (isl & Hk' & Hisl).
  exists isl. split; [done|]. unfold layout in Hisl. congruence.
Qed.

Lemma direction_command s d isl target :
  d ∈ ["north"; "south"; "east"; "west"] →
  here s = Some isl →
  dict_get (exits isl) d = Some target →
  final (handle_command d s)
  = mkState (world s) (mkPlayer target (inventory (player s))).
Proof.
  intros Hd Hh He. rewrite final_command.
  assert (tokenize d = [d] ∧ classify (Str.lower d) = VDirection
          ∧ parse_direction (Str.lower d) = Some d) as (-> & -> & Hp)
    by (in_literal Hd; repeat split; vm_compute; reflexivity).
  by erewrite handle_go_moved, show_location_final.
Qed.

(** X18. Every passage can be sailed back: in a state of the game, when the
    player's island has an exit in the direction [d], the command [d]
    followed by the command for the opposite direction brings the player
    back, and the state is again what it was. *)
Theorem there_and_back (s : State) (d target : string) (isl : Island) :
  game_state s →
  here s = Some isl →
  dict_get (exits isl) d = Some target →
  after [d; opposite d] s = s.
Proof.
  intros Hg Hh Hd.
  destruct (game_state_static s _ isl Hg Hh) as (isl0 & Hk0 & He0).
  pose proof (WORLD_reversible _ _ Hk0) as Hrev. simpl in Hrev.
  rewrite Forall_forall in Hrev.
  destruct (Hrev (d, target)) as [Hdir Hback];
    [rewrite He0; by apply dict_get_elem_of|]. simpl in Hdir, Hback.
  destruct (WORLD !! target) as [isl1|] eqn:Ht; [|done]. simpl in Hback.
  destruct (static_game_state s target isl1 Hg Ht) as (isl' & Ht' & He').
  assert (opposite d ∈ ["north"; "south"; "east"; "west"]) as Hop
    by (in_literal Hdir; vm_compute; set_solver).
  cbn [after foldl].
  rewrite (direction_command s d isl target Hdir Hh Hd).
  rewrite <- He' in Hback.
  rewrite (direction_command
             (mkState (world s) (mkPlayer target (inventory (player s))))
             (opposite d) isl' (location (player s)) Hop Ht' Hback).
  by destruct s as [w [l i]].
Qed.

Lemma walk_after ds s k' :
  game_state s →
  Forall (λ d, d ∈ ["north"; "south"; "east"; "west"]) ds →
  walk (location (player s)) ds = Some k' →
  after ds s = mkState (world s) (mkPlayer k' (inventory (player s))).
Proof.
  intros Hg Hds. revert s Hg. induction Hds as [|d ds Hd _ IH]; intros s Hg Hw.
  - simpl in Hw. simplify_eq. by destruct s as [w [l i]].
  - cbn [walk] in Hw.
    destruct (WORLD !! location (player s)) as [isl0|] eqn:Hk0; [|done].
    simpl in Hw.
    destruct (dict_get (exits isl0) d) as [k1|] eqn:Hk1; [|done]. simpl in Hw.
    destruct (static_game_state s _ isl0 Hg Hk0) as (isl & Hh & He).
    rewrite <- He in Hk1.
    cbn [after foldl].
    rewrite (direction_command s d isl k1 Hd Hh Hk1).
    rewrite <- (direction_command s d isl k1 Hd Hh Hk1) at 1.
    fold (after ds (final (handle_command d s))).
    rewrite IH.
    + by rewrite (direction_command s d isl k1 Hd Hh Hk1).
    + by apply game_state_command.
    + by rewrite (direction_command s d isl k1 Hd Hh Hk1).
Qed.

(** X19. No island is cut off: from every state of the game, Move commands
    alone (each line one of the four direction names) bring the player to
    any island of the world, and they leave every item list and the inventory
    as they were. *)
Theorem every_island_reachable (s : State) (k : string) :
  game_state s →
  k ∈ dom WORLD →
  ∃ cmds,
    Forall (λ cmd, cmd ∈ ["north"; "south"; "east"; "west"]) cmds
    ∧ after cmds s = mkState (world s) (mkPlayer k (inventory (player s))).
Proof.
  intros Hg [islk Hk]%elem_of_dom.
  destruct (proj2 Hg) as [isl Hh].
  destruct (game_state_static s _ isl Hg Hh) as (isl0 & Hk0 & _).
  destruct (WORLD_courses _ _ Hk0 _ _ Hk) as [Hw Hds].
  exists (course (location (player s)) k). split; [done|]. by apply walk_after.
Qed.

(** ** Composing commands *)

(** X20. Drop-then-take is a round trip when the two commands pick the same
    item: if the Drop selects [x] and [x], put last on the island's list, is
    also the first item there that the Take's argument matches, then after
    the two commands every island holds the items it held, the inventory has
    the members it had with [x] now at its end, and the player has not
    moved. *)
Theorem drop_take_restores
    (s : State) (isl : Island) (x : string) (dargs targs : list string) :
  here s = Some isl →
  dargs ≠ [] →
  first_match dargs (inventory (player s)) = Some x →
  targs ≠ [] →
  first_match targs (items isl ++ [x]) = Some x →
  let s' := final (handle_take targs (final (handle_drop dargs s))) in
  same_ownership s s'
  ∧ location (player s') = location (player s)
  ∧ (∃ pre post, inventory (player s) = pre ++ x :: post
                 ∧ inventory (player s') = (pre ++ post) ++ [x])
  ∧ (∃ shelf, world s' !! location (player s) = Some (with_items shelf isl)
              ∧ shelf ≡ₚ items isl)
  ∧ (∀ k, k ≠ location (player s) → world s' !! k = world s !! k).
Proof.
  intros Hh Hd (pre & post & Hinv & Hpre & Hm)%first_match_split
         Ht (pre' & post' & Hit & Hpre' & Hm')%first_match_split s'.
  assert (pre' ++ post' ≡ₚ items isl) as Hperm.
  { apply (Permutation_cons_inv (a := x)).
    by rewrite Permutation_middle, <- Hit, <- Permutation_cons_append. }
  unfold s'. erewrite (handle_drop_found dargs s) by done. cbn [final].
  unfold here in Hh.
  erewrite handle_take_found; cbn [player world inventory location];
    [|done
     |unfold here; cbn [player world location]; by rewrite lookup_alter_eq, Hh
     |exact Hit|done..].
  cbn [final player world inventory location].
  assert (∀ k, k ≠ location (player s) →
               alter (with_items (pre' ++ post')) (location (player s))
                 (alter (with_items (items isl ++ [x])) (location (player s)) (world s))
               !! k
               = world s !! k) as Hother.
  { intros k Hk. by rewrite !lookup_alter_ne. }
  assert (alter (with_items (pre' ++ post')) (location (player s))
            (alter (with_items (items isl ++ [x])) (location (player s)) (world s))
          !! location (player s)
          = Some (with_items (pre' ++ post') isl)) as Hloc.
  { by rewrite !lookup_alter_eq, Hh. }
  split_and!; [split| |by exists pre, post|by exists (pre' ++ post')|]; try done.
  - intros k y. unfold lies_at. cbn [world].
    destruct (decide (k = location (player s))) as [->|Hk].
    + rewrite Hloc, Hh. split; intros (i & Hi' & Hy); simplify_eq; eexists;
        (split; [done|]); simpl in *; [by rewrite <- Hperm|by rewrite Hperm].
    + by rewrite Hother.
  - intros y. cbn [player inventory]. rewrite Hinv. set_solver.
Qed.

(** ** Answers *)

Lemma handle_go_answers args s :
  game_state s → printed (handle_go args s) ≠ [].
Proof.
  intros Hg. destruct (proj2 Hg) as [isl Hh].
  destruct args as [|tok rest]; [done|].
  destruct (parse_direction tok) as [d|] eqn:Hp; [|by rewrite handle_go_unparsed].
  destruct (dict_get (exits isl) d) as [target|] eqn:Hd;
    [|by erewrite handle_go_blocked].
  erewrite handle_go_moved by done.
  destruct (game_state_exit s isl d target Hg Hh Hd) as [isl' Ht].
  by destruct (show_location_banner
                 (mkState (world s) (mkPlayer target (inventory (player s)))) isl' Ht)
    as (more & ->).
Qed.

Lemma printed_then {A B} (m : Proc A) (f : A → Proc B) s :
  printed (m s) ≠ [] → printed ((m ≫= f) s) ≠ [].
Proof.
  unfold mbind, Proc_bind, proc_bind. cbv zeta.
  destruct (outcome (m s)); cbn [printed]; [|done].
  intros Hm Happ. by apply app_eq_nil in Happ as [? _].
Qed.

(** X21. Every line that has a token gets an answer: in a state of the game
    [handle_command] prints nothing exactly when the line is blank. *)
Theorem silent_iff_blank (s : State) (cmd : string) :
  game_state s →
  printed (handle_command cmd s) = [] ↔ tokenize cmd = [].
Proof.
  intros Hg. rewrite handle_command_eq.
  destruct (tokenize cmd) as [|verb args]; [done|]. split; [|done].
  intros Hp. exfalso. revert Hp. unfold handle_look, handle_help.
  destruct (proj2 Hg) as [isl Hh].
  destruct (classify (Str.lower verb)); try done; apply printed_then.
  - by apply handle_go_answers.
  - by apply handle_go_answers.
  - by destruct (show_location_banner s isl Hh) as (more & ->).
  - destruct (handle_take_cases args s isl Hh)
      as [(Heq & _ & [->|Hno])|(pre & found & post & ? & ? & ? & ?)].
    + done.
    + destruct args as [|a args'] eqn:Ha; [done|]. rewrite <- Ha in *.
      erewrite handle_take_none; [done|by rewrite Ha|done|].
      apply filter_none. intros x Hx. by apply Hno.
    + by erewrite handle_take_found.
  - destruct args as [|a args'] eqn:Ha; [done|]. rewrite <- Ha.
    assert (args ≠ []) as Hne by (by rewrite Ha). clear Ha.
    destruct (filter (is_match (item_of args)) (inventory (player s)))
      as [|found rest] eqn:Hf; [by erewrite handle_drop_none|].
    apply filter_head_split in Hf as (pre & post & Hi & Hpre & Hm).
    by erewrite handle_drop_found.
  - destruct (decide (inventory (player s) = [])) as [He|Hne].
    + unfold handle_inventory. proc_unfold. cbn [outcome final printed app].
      by rewrite He.
    + by rewrite handle_inventory_nonempty.
Qed.

End game.

(** * Instances at concrete inputs *)

#[global] Existing Instance ascii_lowering.

Lemma single_ownership_witness :
  owners "spyglass" (after (["e"] ++ ["take spy"; "w"; "drop glass"; "get SPYGLASS"])
                           initial_state) = 1.
Proof.
  apply (single_ownership ["e"]).
  apply (bool_decide_unpack _). vm_compute. reflexivity.
Defined.

Lemma has_all_treasure_spec_witness :
  has_all_treasure
    (mkPlayer "Skull Key"
       ["note"; "rum"; "map piece"; "spyglass"; "doubloon"; "compass"; "cutlass"])
  = has_all_treasure
      (mkPlayer "Pirate Cove"
         ["cutlass"; "compass"; "doubloon"; "rum"; "spyglass"; "map piece"]).
Proof.
  apply (proj2 (has_all_treasure_spec (mkPlayer "Pirate Cove" _))).
  intros t Ht. simpl.
  repeat (apply elem_of_cons in Ht as [->|Ht]); [..|by apply elem_of_nil in Ht];
    split; intros _; apply (bool_decide_unpack _); vm_compute; reflexivity.
Defined.

Lemma blank_line_noop_witness :
  handle_command (" " ++ String "009"%char (Str.utf8 160 ++ Str.utf8 12288 ++ " "))
    initial_state
  = mkResult (Ret true) initial_state [].
Proof. apply blank_line_noop. vm_compute. reflexivity. Defined.

Lemma quit_iff_witness :
  outcome (handle_command "take the moon" initial_state) = Ret true
  ∧ outcome (handle_command "Exit stage left" initial_state) = Ret false.
Proof.
  split.
  - apply (proj1 (proj2 (quit_iff initial_state "take the moon"))).
    + split; [reflexivity | eexists; vm_compute; reflexivity].
    + intros (verb & args & Ht & Hv). vm_compute in Ht.
      injection Ht as <- <-. vm_compute in Hv. destruct Hv; discriminate.
  - apply (proj1 (quit_iff initial_state "Exit stage left")).
    exists "Exit", ["stage"; "left"].
    split; [vm_compute; reflexivity | right; vm_compute; reflexivity].
Defined.

Lemma victory_iff_witness :
  announces_victory
    (printed (handle_command ("n" ++ Str.utf8 160)%string
                (after (take 14 winning_script) initial_state)))
  ∧ ¬ announces_victory
        (printed (handle_command "look" (after winning_script initial_state))).
Proof.
  split.
  - assert (game_state (after (take 14 winning_script) initial_state)) as Hg.
    { split; [vm_compute; reflexivity | eexists; vm_compute; reflexivity]. }
    pose proof (proj1 victory_iff _ ("n" ++ Str.utf8 160)%string Hg) as Hiff.
    cbv zeta in Hiff. apply Hiff.
    split; [|split; vm_compute; reflexivity].
    left. exists "n", []. split; [vm_compute; reflexivity|].
    apply (bool_decide_unpack _). vm_compute. reflexivity.
  - assert (game_state (after winning_script initial_state)) as Hg.
    { split; [vm_compute; reflexivity | eexists; vm_compute; reflexivity]. }
    pose proof (proj1 victory_iff _ "look" Hg) as Hiff.
    cbv zeta in Hiff. intros Ha. apply Hiff in Ha as [[Hm|Ht] _].
    + destruct Hm as (verb & args & Htok & Hv). vm_compute in Htok.
      injection Htok as <- <-. apply (bool_decide_pack _) in Hv.
      vm_compute in Hv. destruct Hv.
    + destruct Ht as (verb & args & isl & x & Htok & Hv & _). vm_compute in Htok.
      injection Htok as <- <-. apply (bool_decide_pack _) in Hv.
      vm_compute in Hv. destruct Hv.
Defined.

Lemma rejected_move_frame_witness :
  (final (handle_command "go" initial_state) = initial_state
   ∧ head (printed (handle_command "go" initial_state))
     = Some (Print "Go where? Try 'go north' or 'go n'."))
  ∧ (final (handle_command "go  UP there" initial_state) = initial_state
     ∧ head (printed (handle_command "go  UP there" initial_state))
       = Some (Print "That's not a direction. Use north/south/east/west (or n/s/e/w)."))
  ∧ (final (handle_command ("North" ++ Str.utf8 160)%string initial_state) = initial_state
     ∧ head (printed (handle_command ("North" ++ Str.utf8 160)%string initial_state))
       = Some (Print "No passage that way.")).
Proof.
  split_and!.
  - assert (tokenize "go" = ["go"]) as Ht by (vm_compute; reflexivity).
    assert (Str.lower "go" ∈ ["go"; "move"]) as Hv
      by (apply (bool_decide_unpack _); vm_compute; reflexivity).
    pose proof (rejected_move_frame initial_state "go" "go" [] [] Ht
                  (or_introl (conj Hv eq_refl))) as Hr.
    cbv zeta in Hr. destruct Hr as (Hr & _).
    destruct (Hr eq_refl) as (Hf & _ & Hp). exact Hf.
  - assert (tokenize "go" = ["go"]) as Ht by (vm_compute; reflexivity).
    assert (Str.lower "go" ∈ ["go"; "move"]) as Hv
      by (apply (bool_decide_unpack _); vm_compute; reflexivity).
    pose proof (rejected_move_frame initial_state "go" "go" [] [] Ht
                  (or_introl (conj Hv eq_refl))) as Hr.
    cbv zeta in Hr. destruct Hr as (Hr & _).
    destruct (Hr eq_refl) as (Hf & _ & Hp). exact Hp.
  - assert (tokenize "go  UP there" = ["go"; "UP"; "there"]) as Ht
      by (vm_compute; reflexivity).
    assert (Str.lower "go" ∈ ["go"; "move"]) as Hv
      by (apply (bool_decide_unpack _); vm_compute; reflexivity).
    pose proof (rejected_move_frame initial_state "go  UP there" "go"
                  ["UP"; "there"] ["UP"; "there"] Ht
                  (or_introl (conj Hv eq_refl))) as Hr.
    cbv zeta in Hr. destruct Hr as (_ & Hr & _).
    assert (parse_direction "UP" = None) as Hp by (vm_compute; reflexivity).
    destruct (Hr "UP" ["there"] eq_refl Hp) as (Hf & _ & _). exact Hf.
  - assert (tokenize "go  UP there" = ["go"; "UP"; "there"]) as Ht
      by (vm_compute; reflexivity).
    assert (Str.lower "go" ∈ ["go"; "move"]) as Hv
      by (apply (bool_decide_unpack _); vm_compute; reflexivity).
    pose proof (rejected_move_frame initial_state "go  UP there" "go"
                  ["UP"; "there"] ["UP"; "there"] Ht
                  (or_introl (conj Hv eq_refl))) as Hr.
    cbv zeta in Hr. destruct Hr as (_ & Hr & _).
    assert (parse_direction "UP" = None) as Hp by (vm_compute; reflexivity).
    destruct (Hr "UP" ["there"] eq_refl Hp) as (_ & _ & Hq). exact Hq.
  - assert (tokenize ("North" ++ Str.utf8 160)%string = ["North"]) as Ht
      by (vm_compute; reflexivity).
    assert (Str.lower "North"
              ∈ ["n"; "s"; "e"; "w"; "north"; "south"; "east"; "west"]) as Hv
      by (apply (bool_decide_unpack _); vm_compute; reflexivity).
    pose proof (rejected_move_frame initial_state ("North" ++ Str.utf8 160)%string
                  "North" [] [Str.lower "North"] Ht
                  (or_intror (conj Hv eq_refl))) as Hr.
    cbv zeta in Hr. destruct Hr as (_ & _ & Hr & _).
    assert (parse_direction (Str.lower "North") = Some "north") as Hp
      by (vm_compute; reflexivity).
    assert (∃ isl, here initial_state = Some isl
                   ∧ dict_get (exits isl) "north" = None) as (isl & Hh & Hd)
      by (eexists; split; vm_compute; reflexivity).
    destruct (Hr _ [] _ _ eq_refl Hp Hh Hd) as (Hf & _ & _). exact Hf.
  - assert (tokenize ("North" ++ Str.utf8 160)%string = ["North"]) as Ht
      by (vm_compute; reflexivity).
    assert (Str.lower "North"
              ∈ ["n"; "s"; "e"; "w"; "north"; "south"; "east"; "west"]) as Hv
      by (apply (bool_decide_unpack _); vm_compute; reflexivity).
    pose proof (rejected_move_frame initial_state ("North" ++ Str.utf8 160)%string
                  "North" [] [Str.lower "North"] Ht
                  (or_intror (conj Hv eq_refl))) as Hr.
    cbv zeta in Hr. destruct Hr as (_ & _ & Hr & _).
    assert (parse_direction (Str.lower "North") = Some "north") as Hp
      by (vm_compute; reflexivity).
    assert (∃ isl, here initial_state = Some isl
                   ∧ dict_get (exits isl) "north" = None) as (isl & Hh & Hd)
      by (eexists; split; vm_compute; reflexivity).
    destruct (Hr _ [] _ _ eq_refl Hp Hh Hd) as (_ & _ & Hq). exact Hq.
Defined.

Lemma take_first_match_witness :
  let s := after ["e"; "take spyglass"; "e"; "take compass"; "w"; "w";
                  "drop compass"; "drop spyglass"] initial_state in
  let r := handle_take ["SS"] s in
  items <$> here s = Some ["note"; "compass"; "spyglass"]
  ∧ outcome r = Ret tt
  ∧ head (printed r) = Some (Print "You take the compass.")
  ∧ items <$> world (final r) !! "Pirate Cove" = Some ["note"; "spyglass"]
  ∧ inventory (player (final r)) = ["compass"].
Proof.
  intros s r.
  destruct (take_first_match s ["SS"]
              (mkIsland "Pirate Cove" (default "" (description <$> here s))
                 ["note"; "compass"; "spyglass"]
                 [("east", "Skull Key"); ("south", "Mermaid Shoals")])
              ["note"] ["spyglass"] "compass")
    as (Ho & Hp & Hw & _ & Hpl).
  - discriminate.
  - vm_compute. reflexivity.
  - reflexivity.
  - intros z Hz. apply list_elem_of_singleton in Hz as ->.
    rewrite <- is_match_contains. vm_compute. discriminate.
  - exists "compa", "". vm_compute. reflexivity.
  - fold r in Ho, Hp, Hw, Hpl. split_and!.
    + vm_compute. reflexivity.
    + exact Ho.
    + exact Hp.
    + change (location (player s)) with "Pirate Cove" in Hw. rewrite Hw. reflexivity.
    + rewrite Hpl. vm_compute. reflexivity.
Defined.

Lemma failed_take_drop_frame_witness :
  final (handle_command "Take cutlass" initial_state) = initial_state
  ∧ final (handle_command "drop the rum" (after ["take note"] initial_state))
    = after ["take note"] initial_state.
Proof.
  split.
  - apply (proj1 (failed_take_drop_frame initial_state "Take cutlass" "Take" ["cutlass"]
                    eq_refl)).
    + apply (bool_decide_unpack _). vm_compute. reflexivity.
    + intros isl x Hh Hx. vm_compute in Hh. injection Hh as <-.
      apply list_elem_of_singleton in Hx as ->.
      rewrite <- is_match_contains. vm_compute. discriminate.
  - apply (proj2 (failed_take_drop_frame (after ["take note"] initial_state)
                    "drop the rum" "drop" ["the"; "rum"] eq_refl)).
    + vm_compute. reflexivity.
    + intros x Hx. vm_compute in Hx.
      apply list_elem_of_singleton in Hx as ->.
      rewrite <- is_match_contains. vm_compute. discriminate.
Defined.

(** A Drop takes the first carried item that its argument matches, which
    need not be the item just taken: with the spyglass carried, taking the
    compass and dropping [s] leaves the spyglass behind and keeps the
    compass. *)
Lemma take_drop_counterexample :
  ¬ take_drop_round_trip (after ["e"; "take spyglass"; "e"] initial_state)
      "compass" ["compass"] ["s"].
Proof.
  unfold take_drop_round_trip. intros H. destruct H as [_ Hinv].
  - eexists. split; [vm_compute; reflexivity|]. simpl. left.
  - discriminate.
  - eexists. split; vm_compute; reflexivity.
  - discriminate.
  - vm_compute. reflexivity.
  - specialize (Hinv "spyglass"). vm_compute in Hinv. destruct Hinv as [_ Hinv].
    assert ("spyglass" ∈ ["compass"]) as Hin by (apply Hinv; left).
    apply list_elem_of_singleton in Hin. discriminate.
Qed.

Lemma take_drop_restores_witness :
  let s := after ["e"; "take spyglass"; "e"] initial_state in
  let s' := take_then_drop ["compass"] ["COMP"] s in
  inventory (player s') ≡ₚ inventory (player s)
  ∧ location (player s') = location (player s).
Proof.
  intros s s'.
  destruct (take_drop_restores s
              (mkIsland "Blackwater Cay" (default "" (description <$> here s))
                 ["compass"] [("west", "Skull Key"); ("south", "Rumrunner Atoll")])
              "compass" ["compass"] ["COMP"])
    as (_ & Hloc & Hinv & _).
  - vm_compute. reflexivity.
  - discriminate.
  - vm_compute. reflexivity.
  - discriminate.
  - vm_compute. reflexivity.
  - split; [exact Hinv | exact Hloc].
Defined.

(** Sailing east, taking the spyglass and sailing back: the spyglass has left
    Skull Key for the inventory, and the inventory lists the five treasures
    still missing, sorted. *)
Example scenario_spyglass :
  let s := after ["go east"; "take spyglass"; "go west"] initial_state in
  player s = mkPlayer "Pirate Cove" ["spyglass"]
  ∧ items <$> world s !! "Skull Key" = Some []
  ∧ printed (handle_command "inventory" s)
    = [Print "You carry: spyglass";
       Print "Still missing: compass, cutlass, doubloon, map piece, rum"].
Proof. by vm_compute. Qed.

(** Asking again and again for a cutlass where there is none changes nothing
    and gets the same answer. *)
Example scenario_no_cutlass :
  after (replicate 3 "take cutlass") initial_state = initial_state
  ∧ transcript (replicate 3 "take cutlass") initial_state
    = replicate 3 (Print "You don't see that here.").
Proof. by vm_compute. Qed.

(** With the six treasures collected, victory is announced on the turn that
    reaches Pirate Cove and not before. *)
Example scenario_victory_on_arrival :
  banners (transcript (take 14 winning_script) initial_state) = 0
  ∧ announces_victory
      (printed (handle_command "n" (after (take 14 winning_script) initial_state))).
Proof.
  split; [by vm_compute|].
  apply (bool_decide_unpack _). by vm_compute.
Qed.

(** First match, not best match: with the compass and the spyglass both on
    Pirate Cove, [take s] picks the compass, which lies first. *)
Example scenario_first_match :
  let s := after ["e"; "take spyglass"; "e"; "take compass"; "w"; "w";
                  "drop compass"; "drop spyglass"; "take s"] initial_state in
  inventory (player s) = ["compass"]
  ∧ items <$> world s !! "Pirate Cove" = Some ["note"; "spyglass"].
Proof. by vm_compute. Qed.

Lemma tokenize_join_witness :
  tokenize (Str.join " " ["map"; ("pi" ++ Str.utf8 232 ++ "ce")%string; Str.utf8 12354])
  = ["map"; ("pi" ++ Str.utf8 232 ++ "ce")%string; Str.utf8 12354].
Proof.
  apply tokenize_join.
  apply Forall_cons_2; [|apply Forall_cons_2; [|apply Forall_cons_2; [|apply Forall_nil_2]]];
    (split; [discriminate | split; vm_compute; reflexivity]).
Defined.

Lemma handle_command_lower_witness :
  handle_command (Str.lower "Go EAST") initial_state
  = handle_command "Go EAST" initial_state
  ∧ location (player (final (handle_command "Go EAST" initial_state)))
    = "Skull Key".
Proof.
  split; [|vm_compute; reflexivity].
  apply (handle_command_lower initial_state "Go EAST"). vm_compute. reflexivity.
Defined.

Lemma bare_direction_is_go_witness :
  handle_command "East of Eden" initial_state
  = handle_command "MOVE e quickly" initial_state.
Proof.
  apply (bare_direction_is_go initial_state _ _ "East" "MOVE" "e"
           ["of"; "Eden"] ["quickly"]).
  - vm_compute. reflexivity.
  - apply (bool_decide_unpack _). vm_compute. reflexivity.
  - vm_compute. reflexivity.
  - apply (bool_decide_unpack _). vm_compute. reflexivity.
  - vm_compute. reflexivity.
Defined.

Lemma parse_direction_normal_witness :
  parse_direction "West" = parse_direction "WEST"
  ∧ parse_direction "west" = Some "west".
Proof.
  split.
  - apply (proj2 (proj2 (proj2 parse_direction_normal))). vm_compute. reflexivity.
  - apply (proj1 parse_direction_normal). apply (bool_decide_unpack _).
    vm_compute. reflexivity.
Defined.

Lemma move_arrives_witness :
  final (handle_go ["S"; "please"] initial_state)
  = mkState WORLD (mkPlayer "Mermaid Shoals" []).
Proof.
  refine (proj1 (proj2 (move_arrives initial_state "S" "south" "Mermaid Shoals"
                          ["please"]
                          (default (mkIsland "" "" [] []) (here initial_state))
                          _ _ _ _))).
  - split; [reflexivity | eexists; vm_compute; reflexivity].
  - vm_compute. reflexivity.
  - vm_compute. reflexivity.
  - vm_compute. reflexivity.
Defined.

Lemma drop_first_match_witness :
  let s := after ["e"; "take spyglass"; "e"; "take compass"] initial_state in
  let r := handle_drop ["S"] s in
  printed r = [Print "You drop the spyglass."]
  ∧ items <$> world (final r) !! "Blackwater Cay" = Some ["spyglass"]
  ∧ inventory (player (final r)) = ["compass"].
Proof.
  intros s r.
  destruct (drop_first_match s ["S"]
              (default (mkIsland "" "" [] []) (here s)) [] ["compass"] "spyglass")
    as (_ & Hp & Hw & _ & Hpl).
  - discriminate.
  - vm_compute. reflexivity.
  - vm_compute. reflexivity.
  - intros z Hz. by apply elem_of_nil in Hz.
  - exists "", "pyglass". vm_compute. reflexivity.
  - fold r in Hp, Hw, Hpl. split_and!.
    + exact Hp.
    + change (location (player s)) with "Blackwater Cay" in Hw. rewrite Hw.
      vm_compute. reflexivity.
    + rewrite Hpl. reflexivity.
Defined.

Lemma inventory_report_witness :
  let s := after ["take note"; "e"; "take spyglass"] initial_state in
  final (handle_inventory s) = s
  ∧ ∃ line, printed (handle_inventory s)
            = [Print ("You carry: " ++ Str.join ", " (inventory (player s)));
               Print line].
Proof.
  intros s. destruct (inventory_report s) as (Hf & _ & _ & Hne).
  split; [exact Hf|].
  destruct Hne as (line & Hp & _); [vm_compute; discriminate|].
  exists line. exact Hp.
Defined.

Lemma only_actions_change_witness :
  ∃ verb args,
    tokenize "  Pick  NOTE " = verb :: args
    ∧ Str.lower verb ∈ ["go"; "move"; "n"; "s"; "e"; "w"; "north"; "south"; "east";
                        "west"; "take"; "get"; "pick"; "drop"].
Proof.
  apply (only_actions_change initial_state).
  intros H. apply (f_equal (λ st, inventory (player st))) in H.
  vm_compute in H. discriminate.
Defined.

Lemma command_frames_witness :
  world (final (handle_command "go south" initial_state)) = world initial_state
  ∧ inventory (player (final (handle_command "go south" initial_state)))
    = inventory (player initial_state).
Proof.
  apply (proj1 (command_frames initial_state "go south")).
  exists "go", ["south"]. split; [vm_compute; reflexivity|].
  apply (bool_decide_unpack _). vm_compute. reflexivity.
Defined.

Lemma commands_keep_the_game_witness :
  game_state (final (handle_command "get note" initial_state))
  ∧ holdings (final (handle_command "get note" initial_state))
    ≡ₚ holdings initial_state.
Proof.
  apply commands_keep_the_game.
  split; [reflexivity | eexists; vm_compute; reflexivity].
Defined.

Lemma only_key_errors_witness :
  ∃ k, KeyError "Tortuga" = KeyError k
       ∧ world (mkState WORLD (mkPlayer "Tortuga" [])) !! k = None
       ∧ (k = "Tortuga"
          ∨ ∃ isl d, here (mkState WORLD (mkPlayer "Tortuga" [])) = Some isl
                     ∧ dict_get (exits isl) d = Some k).
Proof.
  apply (only_key_errors (mkState WORLD (mkPlayer "Tortuga" [])) "look").
  vm_compute. reflexivity.
Defined.

Lemma game_loop_until_quit_witness :
  game_loop (["e"; "take spyglass"] ++ "Quit" :: ["w"; "look"]) initial_state
  = mkResult (Ret tt) (after ["e"; "take spyglass"] initial_state)
      (transcript ["e"; "take spyglass"] initial_state
       ++ [Print "Fair winds, captain."])
  ∧ unread (["e"; "take spyglass"] ++ "Quit" :: ["w"; "look"]) initial_state
    = ["w"; "look"].
Proof.
  apply game_loop_until_quit.
  - split; [reflexivity | eexists; vm_compute; reflexivity].
  - repeat constructor; intros (verb & args & Ht & Hv); vm_compute in Ht;
      injection Ht as <- <-; vm_compute in Hv; destruct Hv; discriminate.
  - exists "Quit", []. split; [vm_compute; reflexivity | left; vm_compute; reflexivity].
Defined.

Lemma game_loop_to_end_of_input_witness :
  game_loop ["s"; "take map piece"] initial_state
  = mkResult (Ret tt) (after ["s"; "take map piece"] initial_state)
      (transcript ["s"; "take map piece"] initial_state
       ++ [Print (Str.nl ++ "Fair winds, captain.")])
  ∧ unread ["s"; "take map piece"] initial_state = [].
Proof.
  apply game_loop_to_end_of_input.
  - split; [reflexivity | eexists; vm_compute; reflexivity].
  - repeat constructor; intros (verb & args & Ht & Hv); vm_compute in Ht;
      injection Ht as <- <-; vm_compute in Hv; destruct Hv; discriminate.
Defined.

Lemma run_ends_witness :
  let r := run ["2"; ""; "1"; "take note"; "bye"] WORLD in
  (ending r = Returned ∨ ending r = EndOfInput)
  ∧ game_world (world_left r)
  ∧ stock (world_left r) ⊆+ stock WORLD
  ∧ ∀ fuel, (length ["2"; ""; "1"; "take note"; "bye"] < fuel)%nat →
            run_fuel fuel ["2"; ""; "1"; "take note"; "bye"] WORLD = r.
Proof. apply run_ends. reflexivity. Defined.

Lemma run_returns_by_choice_3_witness :
  ending (run ["1"; "look"; "go east"] WORLD) = EndOfInput.
Proof.
  apply (proj2 (run_returns_by_choice_3 WORLD ["1"; "look"; "go east"] eq_refl)).
  repeat constructor; vm_compute; discriminate.
Defined.

Lemma session_keeps_items_witness :
  let g := start_game ["take note"; "quit"] WORLD in
  inventory (player (final g)) = ["note"]
  ∧ "note" ∉ stock (world (final g)).
Proof.
  intros g.
  destruct (session_keeps_items WORLD ["take note"; "quit"]) as (_ & _ & _ & Hlost).
  - reflexivity.
  - split; [vm_compute; reflexivity|]. apply Hlost.
    + apply (bool_decide_unpack _). vm_compute. reflexivity.
    + apply (bool_decide_unpack _). vm_compute. reflexivity.
Defined.

(** The note taken in a first session is gone in the second. *)
Example scenario_lost_note :
  let r := run ["1"; "take note"; "quit"; "1"; "look"; "quit"; "3"] WORLD in
  ending r = Returned
  ∧ "note" ∈ stock WORLD
  ∧ "note" ∉ stock (world_left r).
Proof.
  split_and!; [by vm_compute|..]; apply (bool_decide_unpack _); by vm_compute.
Qed.

Lemma there_and_back_witness :
  after ["south"; opposite "south"] (after ["e"; "take spyglass"; "e"] initial_state)
  = after ["e"; "take spyglass"; "e"] initial_state.
Proof.
  apply (there_and_back _ "south" "Rumrunner Atoll"
           (default (mkIsland "" "" [] [])
              (here (after ["e"; "take spyglass"; "e"] initial_state)))).
  - split; [vm_compute; reflexivity | eexists; vm_compute; reflexivity].
  - vm_compute. reflexivity.
  - vm_compute. reflexivity.
Defined.

Lemma every_island_reachable_witness :
  ∃ cmds,
    Forall (λ cmd, cmd ∈ ["north"; "south"; "east"; "west"]) cmds
    ∧ after cmds (after ["take note"; "s"; "s"] initial_state)
      = mkState (world (after ["take note"; "s"; "s"] initial_state))
                (mkPlayer "Blackwater Cay" ["note"]).
Proof.
  apply (every_island_reachable (after ["take note"; "s"; "s"] initial_state)
           "Blackwater Cay").
  - split; [vm_compute; reflexivity | eexists; vm_compute; reflexivity].
  - apply (bool_decide_unpack _). vm_compute. reflexivity.
Defined.

Lemma drop_take_restores_witness :
  let s := after ["take note"; "e"; "take spyglass"] initial_state in
  let s' := final (handle_take ["spy"] (final (handle_drop ["glass"] s))) in
  same_ownership s s' ∧ location (player s') = location (player s).
Proof.
  intros s s'.
  destruct (drop_take_restores s (default (mkIsland "" "" [] []) (here s))
              "spyglass" ["glass"] ["spy"])
    as (Hsame & Hloc & _).
  - vm_compute. reflexivity.
  - discriminate.
  - vm_compute. reflexivity.
  - discriminate.
  - vm_compute. reflexivity.
  - split; [exact Hsame | exact Hloc].
Defined.

Lemma silent_iff_blank_witness :
  printed (handle_command "   " initial_state) = [] ↔ tokenize "   " = [].
Proof.
  apply silent_iff_blank.
  split; [reflexivity | eexists; vm_compute; reflexivity].
Defined.
